(** * Head syncer: the change graph, the sync coordinator and the peer selection

    A shallow embedding of [src/head-syncer.ts].  JavaScript's [Set] and [Map]
    iterate in insertion order, and [calculatePeersToDownloadFrom] breaks ties
    by that order, so both are modelled as lists that keep it: a [Set<string>]
    as a duplicate-free list of strings, a [Map<string, V>] as an association
    list with one entry per key.  Mutation of [this] is explicit state
    passing; the asynchronous storage boundary is a small state-and-error
    monad over a log of storage calls. *)

From Stdlib Require Import List String Ascii Bool Arith NArith Lia Permutation.
Import ListNotations.
Open Scope string_scope.
Open Scope list_scope.
Open Scope nat_scope.

(** ** JavaScript containers *)

Module JsSet.

(** [Set<string>], oldest element first. *)
Definition t := list string.

Definition empty : t := [].

Definition has (x : string) (s : t) : bool := existsb (String.eqb x) s.

(** [s.add(x)]: a new element goes last, a present one keeps its place. *)
Definition add (x : string) (s : t) : t := if has x s then s else s ++ [x].

(** [s.delete(x)].  A set holds [x] at most once, so dropping every
    occurrence is dropping the one there is. *)
Definition delete (x : string) (s : t) : t :=
  filter (fun y => negb (String.eqb x y)) s.

(** [new Set(iterable)]. *)
Definition from_array (l : list string) : t :=
  fold_left (fun s x => add x s) l empty.

Definition size (s : t) : nat := List.length s.

(** [a.intersection(b)].  The order of the result is the order of the smaller
    operand in ECMAScript; the callers below only take its [size] and pass it
    to [difference], neither of which sees the order. *)
Definition intersection (a b : t) : t := filter (fun x => has x b) a.

(** [a.difference(b)], in the order of [a]. *)
Definition difference (a b : t) : t := filter (fun x => negb (has x b)) a.

End JsSet.

Module JsMap.

(** [Map<string, V>], oldest key first. *)
Definition t (V : Type) := list (string * V).

Definition empty {V} : t V := [].

Fixpoint get {V} (k : string) (m : t V) : option V :=
  match m with
  | [] => None
  | (k', v) :: rest => if String.eqb k k' then Some v else get k rest
  end.

Definition has {V} (k : string) (m : t V) : bool :=
  match get k m with Some _ => true | None => false end.

(** [m.set(k, v)]: an existing key keeps its position, a new one goes last. *)
Fixpoint set {V} (k : string) (v : V) (m : t V) : t V :=
  match m with
  | [] => [(k, v)]
  | (k', v') :: rest =>
      if String.eqb k k' then (k, v) :: rest else (k', v') :: set k v rest
  end.

Definition delete {V} (k : string) (m : t V) : t V :=
  filter (fun kv => negb (String.eqb k (fst kv))) m.

Definition keys {V} (m : t V) : list string := map fst m.

(** [new Map(entries)]. *)
Definition from_entries {V} (entries : list (string * V)) : t V :=
  fold_left (fun m kv => set (fst kv) (snd kv) m) entries empty.

End JsMap.

(** [getOrDefault(map, key, def)]: the value stored under [key], after storing
    [def] there when the key is absent.  The stored values are [Set] objects,
    which are always truthy.  Returns the value and the map as left behind. *)
Definition getOrDefault {V} (m : JsMap.t V) (key : string) (def : V)
  : V * JsMap.t V :=
  match JsMap.get key m with
  | Some existing => (existing, m)
  | None => (def, JsMap.set key def m)
  end.

(** [getOrDefault(m, key, new Set()).add(x)]: the set returned is the object
    held by the map, so adding to it updates the entry in place. *)
Definition addToEntry (key x : string) (m : JsMap.t JsSet.t) : JsMap.t JsSet.t :=
  let '(entry, m1) := getOrDefault m key JsSet.empty in
  JsMap.set key (JsSet.add x entry) m1.

(** ** The change graph *)

Record PartialChange := mkChange { hash : string; deps : list string }.

Inductive AddChangeResult :=
| new_head (removedHeads missingDeps : list string)
| already_exists
| was_missing.

Record ChangeGraph := mkGraph {
  nodes : JsMap.t (list string);
  missing : JsSet.t;
  heads : JsSet.t
}.

(** [new ChangeGraph()]. *)
Definition emptyGraph : ChangeGraph :=
  {| nodes := JsMap.empty; missing := JsSet.empty; heads := JsSet.empty |}.

(** What the [forEach] over the distinct dependencies reads and writes. *)
Record DepsLoop := mkDepsLoop {
  l_heads : JsSet.t;
  l_missing : JsSet.t;
  l_removedHeads : list string;
  l_missingDeps : list string
}.

(** One call of the [forEach] callback; [known] is [this.nodes], which the
    loop does not change. *)
Definition depStep (known : JsMap.t (list string)) (st : DepsLoop) (dep : string)
  : DepsLoop :=
  let st1 :=
    if JsSet.has dep (l_heads st)
    then {| l_heads := JsSet.delete dep (l_heads st);
            l_missing := l_missing st;
            l_removedHeads := l_removedHeads st ++ [dep];
            l_missingDeps := l_missingDeps st |}
    else st in
  if negb (JsMap.has dep known)
  then {| l_heads := l_heads st1;
          l_missing := JsSet.add dep (l_missing st1);
          l_removedHeads := l_removedHeads st1;
          l_missingDeps := l_missingDeps st1 ++ [dep] |}
  else st1.

Definition addChange (change : PartialChange) (g : ChangeGraph)
  : AddChangeResult * ChangeGraph :=
  if JsMap.has (hash change) (nodes g) then (already_exists, g)
  else
    let nodes1 := JsMap.set (hash change) (deps change) (nodes g) in
    if JsSet.has (hash change) (missing g) then
      (was_missing,
       {| nodes := nodes1;
          missing := JsSet.delete (hash change) (missing g);
          heads := heads g |})
    else
      let start :=
        {| l_heads := JsSet.add (hash change) (heads g);
           l_missing := missing g;
           l_removedHeads := [];
           l_missingDeps := [] |} in
      let final :=
        fold_left (depStep nodes1) (JsSet.from_array (deps change)) start in
      (new_head (l_removedHeads final) (l_missingDeps final),
       {| nodes := nodes1; missing := l_missing final; heads := l_heads final |}).

(** The graph after a run of [addChange] calls, oldest first. *)
Definition addChanges (cs : list PartialChange) (g : ChangeGraph) : ChangeGraph :=
  fold_left (fun g c => snd (addChange c g)) cs g.

(** ** The sync coordinator, in memory *)

Record HeadSyncer := mkSyncer {
  changes : ChangeGraph;
  headPeers : JsMap.t JsSet.t
}.

Definition emptySyncer : HeadSyncer :=
  {| changes := emptyGraph; headPeers := JsMap.empty |}.

(** The body of the [for] loop of [ingestChanges]. *)
Definition ingestChange (peer : string) (s : HeadSyncer) (change : PartialChange)
  : HeadSyncer :=
  let '(result, g) := addChange change (changes s) in
  match result with
  | new_head removedHeads _ =>
      let withPeer := addToEntry (hash change) peer (headPeers s) in
      {| changes := g;
         headPeers := fold_left (fun m h => JsMap.delete h m) removedHeads withPeer |}
  | already_exists =>
      if JsSet.has (hash change) (heads g)
      then {| changes := g; headPeers := addToEntry (hash change) peer (headPeers s) |}
      else {| changes := g; headPeers := headPeers s |}
  | was_missing => {| changes := g; headPeers := headPeers s |}
  end.

(** The whole [for] loop: the in-memory effect of one [ingestChanges] call. *)
Definition applyBatch (peer : string) (batch : list PartialChange) (s : HeadSyncer)
  : HeadSyncer :=
  fold_left (ingestChange peer) batch s.

(** ** Snapshots *)

Record ChangeGraphPojo := mkGraphPojo {
  p_nodes : list (string * list string);
  p_missing : list string;
  p_heads : list string
}.

Record HeadSyncerPojo := mkSyncerPojo {
  p_changes : ChangeGraphPojo;
  p_headPeers : list (string * list string)
}.

(** The own keys of a plain object come in a fixed order: the keys that are
    array indices (the decimal numerals of 0 to 2^32 - 2, without leading
    zero) in ascending order, then the other keys in the order they were
    created.  [Object.fromEntries], [JSON.stringify], [JSON.parse] and
    [Object.entries] all go by it. *)
Definition digit (c : ascii) : option N :=
  let n := N_of_ascii c in
  if ((48 <=? n) && (n <=? 57))%N then Some (n - 48)%N else None.

Fixpoint digitsValue (acc : N) (s : string) : option N :=
  match s with
  | EmptyString => Some acc
  | String c rest =>
      match digit c with
      | Some d => digitsValue (acc * 10 + d)%N rest
      | None => None
      end
  end.

Definition arrayIndex (key : string) : option N :=
  match key with
  | EmptyString => None
  | String c rest =>
      match digitsValue 0%N key with
      | Some v =>
          if (N_of_ascii c =? 48)%N && negb (String.eqb rest EmptyString) then None
          else if (v <? 4294967295)%N then Some v
          else None
      | None => None
      end
  end.

Definition isIndexKey {V} (entry : string * V) : bool :=
  match arrayIndex (fst entry) with Some _ => true | None => false end.

Fixpoint insertByIndex {A} (n : N) (a : A) (l : list (N * A)) : list (N * A) :=
  match l with
  | [] => [(n, a)]
  | (m, b) :: rest =>
      if (n <=? m)%N then (n, a) :: l else (m, b) :: insertByIndex n a rest
  end.

(** The properties of the object made from [entries], in own-key order. *)
Definition objectOrder {V} (entries : list (string * V)) : list (string * V) :=
  map snd
    (fold_right
       (fun entry sorted =>
          match arrayIndex (fst entry) with
          | Some n => insertByIndex n entry sorted
          | None => sorted
          end)
       [] entries)
  ++ filter (fun entry => negb (isIndexKey entry)) entries.

(** [ChangeGraph.pojo]: [nodes] becomes an object, the two sets arrays. *)
Definition graphPojo (g : ChangeGraph) : ChangeGraphPojo :=
  {| p_nodes := objectOrder (nodes g); p_heads := heads g; p_missing := missing g |}.

(** [HeadSyncer.pojo]. *)
Definition pojo (s : HeadSyncer) : HeadSyncerPojo :=
  {| p_changes := graphPojo (changes s);
     p_headPeers := objectOrder (map (fun kv => (fst kv, snd kv)) (headPeers s)) |}.

(** The stored text.  [JSON.parse] gives back the plain object that
    [JSON.stringify] was given, for objects and arrays of strings, with its
    properties in the same own-key order; the text itself is kept
    abstract. *)
Inductive Blob := Json (p : HeadSyncerPojo).

Definition JSON_stringify (p : HeadSyncerPojo) : Blob := Json p.
Definition JSON_parse (b : Blob) : HeadSyncerPojo := let 'Json p := b in p.

(** [new ChangeGraph(pojo)]. *)
Definition graphOfPojo (p : option ChangeGraphPojo) : ChangeGraph :=
  match p with
  | Some p =>
      {| nodes := JsMap.from_entries (p_nodes p);
         heads := JsSet.from_array (p_heads p);
         missing := JsSet.from_array (p_missing p) |}
  | None => emptyGraph
  end.

(** A string is held as its UTF-8 bytes.  A continuation byte, 10xxxxxx,
    belongs to the code point of the byte before it. *)
Definition isContinuation (c : ascii) : bool :=
  let 'Ascii _ _ _ _ _ _ b6 b7 := c in b7 && negb b6.

(** The code points of a string, each as a string of its own: what the
    iterator of a string yields. *)
Fixpoint codePoints (x : string) : list string :=
  match x with
  | EmptyString => []
  | String c rest =>
      match rest with
      | EmptyString => [String c EmptyString]
      | String next _ =>
          if isContinuation next
          then match codePoints rest with
               | following :: others => String c following :: others
               | [] => [String c EmptyString]
               end
          else String c EmptyString :: codePoints rest
      end
  end.

(** [new Set(x)] for a string [x] iterates the string: the set of its code
    points. *)
Definition charSet (x : string) : JsSet.t := JsSet.from_array (codePoints x).

(** A value held under a key of [headPeers] at run time.  The class declares
    [Set<string>]; [init] builds arrays of sets. *)
Inductive PeersValue :=
| SetOfPeers (peers : JsSet.t)
| ArrayOfSets (sets : list JsSet.t).

(** The object [init] returns, with the values it really holds. *)
Record LoadedSyncer := mkLoaded {
  ld_changes : ChangeGraph;
  ld_headPeers : JsMap.t PeersValue
}.

(** [HeadSyncer.init], after [storage.load()] has returned [loaded]. *)
Definition initFrom (loaded : option Blob) : LoadedSyncer :=
  let data := option_map JSON_parse loaded in
  {| ld_changes := graphOfPojo (option_map p_changes data);
     ld_headPeers :=
       match data with
       | Some d =>
           JsMap.from_entries
             (map (fun kv => (fst kv, ArrayOfSets (map charSet (snd kv))))
                  (p_headPeers d))
       | None => JsMap.empty
       end |}.

(** A coordinator built by [ingestChanges], seen as a run-time object. *)
Definition asLoaded (s : HeadSyncer) : LoadedSyncer :=
  {| ld_changes := changes s;
     ld_headPeers := map (fun kv => (fst kv, SetOfPeers (snd kv))) (headPeers s) |}.

(** Set equality of two arrays or sets. *)
Definition sameElements (a b : list string) : Prop := forall x, In x a <-> In x b.

(** Equality of two peer values: sets with the same elements; a set and an
    array are different objects. *)
Definition samePeers (a b : PeersValue) : Prop :=
  match a, b with
  | SetOfPeers x, SetOfPeers y => sameElements x y
  | ArrayOfSets x, ArrayOfSets y => Forall2 sameElements x y
  | _, _ => False
  end.

(** Observational equality of two coordinators: the same [nodes] mapping, the
    same [heads] and [missing] sets, the same [headPeers] mapping. *)
Definition sameState (a b : LoadedSyncer) : Prop :=
  (forall k, JsMap.get k (nodes (ld_changes a)) = JsMap.get k (nodes (ld_changes b)))
  /\ sameElements (heads (ld_changes a)) (heads (ld_changes b))
  /\ sameElements (missing (ld_changes a)) (missing (ld_changes b))
  /\ (forall k,
        match JsMap.get k (ld_headPeers a), JsMap.get k (ld_headPeers b) with
        | Some x, Some y => samePeers x y
        | None, None => True
        | _, _ => False
        end).

(** ** The storage boundary *)

Inductive StorageCall :=
| SaveCall (data : Blob)
| LoadCall.

Section Storage.

(** Whatever the storage keeps, and the value a failed call rejects with. *)
Variables StorageState StorageError : Type.

(** [storage.save(data)]: [None] when the promise resolves, [Some e] when it
    rejects with [e]. *)
Variable storageSave : Blob -> StorageState -> option StorageError * StorageState.

(** The coordinator object, the storage behind it and the calls made to it. *)
Record World := mkWorld {
  syncer : HeadSyncer;
  store : StorageState;
  calls : list StorageCall
}.

(** An [async] method: it settles with a value or a rejection, and leaves the
    world as it made it. *)
Definition Async (A : Type) : Type := World -> (A + StorageError) * World.

Definition resolve {A} (a : A) : Async A := fun w => (inl a, w).

Definition andThen {A B} (m : Async A) (k : A -> Async B) : Async B :=
  fun w =>
    match m w with
    | (inl a, w1) => k a w1
    | (inr e, w1) => (inr e, w1)
    end.

Definition thisSyncer : Async HeadSyncer := fun w => (inl (syncer w), w).

Definition mutate (f : HeadSyncer -> HeadSyncer) : Async unit :=
  fun w => (inl tt, {| syncer := f (syncer w); store := store w; calls := calls w |}).

(** [await this.storage.save(data)]. *)
Definition awaitSave (data : Blob) : Async unit :=
  fun w =>
    let '(outcome, st) := storageSave data (store w) in
    (match outcome with None => inl tt | Some e => inr e end,
     {| syncer := syncer w; store := st; calls := calls w ++ [SaveCall data] |}).

Fixpoint forEach {A} (l : list A) (body : A -> Async unit) : Async unit :=
  match l with
  | [] => resolve tt
  | a :: rest => andThen (body a) (fun _ => forEach rest body)
  end.

Definition ingestChanges (peer : string) (batch : list PartialChange) : Async unit :=
  andThen (forEach batch (fun change => mutate (fun s => ingestChange peer s change)))
    (fun _ => andThen thisSyncer
    (fun s => awaitSave (JSON_stringify (pojo s)))).

End Storage.

Arguments mkWorld {StorageState} _ _ _.
Arguments syncer {StorageState} _.
Arguments store {StorageState} _.
Arguments calls {StorageState} _.
Arguments resolve {StorageState StorageError A} _ _.
Arguments andThen {StorageState StorageError A B} _ _ _.
Arguments thisSyncer {StorageState StorageError} _.
Arguments mutate {StorageState StorageError} _ _.
Arguments awaitSave {StorageState StorageError} _ _ _.
Arguments forEach {StorageState StorageError A} _ _ _.
Arguments ingestChanges {StorageState StorageError} _ _ _ _.

(** ** Peer selection *)

(** The result of a call that may throw.  [OutOfFuel] is the model's own: it
    is what the bounded loop below answers when its bound is too small, and
    [calculate_never_out_of_fuel] shows that the bound used is not. *)
Inductive Outcome (A : Type) :=
| Returned (a : A)
| Thrown (message : string)
| OutOfFuel.

Arguments Returned {A} _.
Arguments Thrown {A} _.
Arguments OutOfFuel {A}.

Definition noPeerMessage : string :=
  "Error in calculatePeersToDownloadFrom() algorithm: didn't find any peer with heads.".

(** The inverted index: every peer with the heads it is recorded under. *)
Definition invertHeadPeers (hp : JsMap.t JsSet.t) : JsMap.t JsSet.t :=
  fold_left
    (fun peerHeads entry =>
       fold_left (fun ph peer => addToEntry peer (fst entry) ph) (snd entry) peerHeads)
    hp JsMap.empty.

(** [peerWithMostHeads?.intersection.size || 0]. *)
Definition bestSize (best : option (string * JsSet.t)) : nat :=
  match best with
  | Some (_, intersection) => JsSet.size intersection
  | None => 0
  end.

(** One step of the scan over [peerHeads]. *)
Definition tryPeer (remaining : JsSet.t) (best : option (string * JsSet.t))
  (entry : string * JsSet.t) : option (string * JsSet.t) :=
  let intersection := JsSet.intersection (snd entry) remaining in
  if bestSize best <? JsSet.size intersection
  then Some (fst entry, intersection)
  else best.

(** The scan: the peer with the most intersections, if any has one. *)
Definition peerWithMostHeads (peerHeads : JsMap.t JsSet.t) (remaining : JsSet.t)
  : option (string * JsSet.t) :=
  fold_left (tryPeer remaining) peerHeads None.

(** The [while] loop, bounded by [fuel] iterations. *)
Fixpoint selectLoop (fuel : nat) (peerHeads : JsMap.t JsSet.t)
  (headsRemaining : JsSet.t) (peersToSync : list string) : Outcome (list string) :=
  if JsSet.size headsRemaining =? 0 then Returned peersToSync
  else
    match fuel with
    | 0 => OutOfFuel
    | S fuel' =>
        match peerWithMostHeads peerHeads headsRemaining with
        | None => Thrown noPeerMessage
        | Some (peer, intersection) =>
            selectLoop fuel' peerHeads
              (JsSet.difference headsRemaining intersection)
              (peersToSync ++ [peer])
        end
    end.

(** Every iteration takes at least one head out of [headsRemaining], so the
    number of heads bounds the number of iterations. *)
Definition calculatePeersToDownloadFrom (s : HeadSyncer) : Outcome (list string) :=
  selectLoop (JsSet.size (heads (changes s)))
    (invertHeadPeers (headPeers s)) (heads (changes s)) [].

(** ** Vocabulary of the specification *)

(** Graphs built from the empty graph by [addChange]. *)
Inductive reachableGraph : ChangeGraph -> Prop :=
| reach_emptyGraph : reachableGraph emptyGraph
| reach_addChange g c : reachableGraph g -> reachableGraph (snd (addChange c g)).

(** Coordinators built from the empty one by [ingestChanges]. *)
Inductive reachable : HeadSyncer -> Prop :=
| reach_empty : reachable emptySyncer
| reach_ingest s peer batch : reachable s -> reachable (applyBatch peer batch s).

(** [h] is listed among the dependencies of some key of [nodes]. *)
Definition listedAsDep (h : string) (g : ChangeGraph) : Prop :=
  exists k ds, JsMap.get k (nodes g) = Some ds /\ In h ds.

(** The head invariant of the specification. *)
Definition headInvariant (g : ChangeGraph) : Prop :=
  forall h, In h (heads g) <->
            (JsMap.has h (nodes g) = true /\ ~ listedAsDep h g).

(** Every head is recorded under at least one peer. *)
Definition headsAttributed (s : HeadSyncer) : Prop :=
  forall h, In h (heads (changes s)) ->
            exists peers p, In (h, peers) (headPeers s) /\ In p peers.

(** Only heads have an entry in [headPeers]. *)
Definition onlyHeadsHavePeers (s : HeadSyncer) : Prop :=
  forall h, In h (JsMap.keys (headPeers s)) -> In h (heads (changes s)).

(** The heads attributed to the peers of [result] are exactly [hs]. *)
Definition coversExactly (peerHeads : JsMap.t JsSet.t) (result : list string)
  (hs : JsSet.t) : Prop :=
  forall h, In h hs <->
            exists p attributed,
              In p result /\ JsMap.get p peerHeads = Some attributed /\ In h attributed.

(** How many of the heads still uncovered a peer would bring. *)
Definition gain (remaining attributed : JsSet.t) : nat :=
  JsSet.size (JsSet.intersection attributed remaining).

(** [p] brings more uncovered heads than every peer seen before it and at
    least as many as every peer seen after it. *)
Definition firstLargest (peerHeads : JsMap.t JsSet.t) (remaining : JsSet.t)
  (p : string) (attributed : JsSet.t) : Prop :=
  exists before after,
    peerHeads = before ++ (p, attributed) :: after
    /\ 0 < gain remaining attributed
    /\ (forall q hs, In (q, hs) before -> gain remaining hs < gain remaining attributed)
    /\ (forall q hs, In (q, hs) after -> gain remaining hs <= gain remaining attributed).

(** [result] is a greedy selection for [remaining]: each peer is the first
    largest for what the peers before it left uncovered, until nothing is. *)
Fixpoint greedySelection (peerHeads : JsMap.t JsSet.t) (remaining : JsSet.t)
  (result : list string) : Prop :=
  match result with
  | [] => remaining = []
  | p :: rest =>
      remaining <> []
      /\ exists attributed,
           firstLargest peerHeads remaining p attributed
           /\ greedySelection peerHeads
                (JsSet.difference remaining (JsSet.intersection attributed remaining))
                rest
  end.

(** One completed iteration of the [while] loop, as a step from the pair
    (headsRemaining, peersToSync) before it to the pair after it. *)
Inductive iteration (peerHeads : JsMap.t JsSet.t)
  : JsSet.t * list string -> JsSet.t * list string -> Prop :=
| iteration_select remaining selected peer intersection :
    remaining <> [] ->
    peerWithMostHeads peerHeads remaining = Some (peer, intersection) ->
    iteration peerHeads (remaining, selected)
      (JsSet.difference remaining intersection, selected ++ [peer]).

(** The loop gets from one pair to another in some number of iterations. *)
Inductive iterations (peerHeads : JsMap.t JsSet.t)
  : JsSet.t * list string -> JsSet.t * list string -> Prop :=
| iterations_none st : iterations peerHeads st st
| iterations_more st1 st2 st3 :
    iterations peerHeads st1 st2 -> iteration peerHeads st2 st3 ->
    iterations peerHeads st1 st3.

(** The pairs the loop of [calculatePeersToDownloadFrom] goes through. *)
Definition atSomeIteration (s : HeadSyncer) (remaining : JsSet.t)
  (selected : list string) : Prop :=
  iterations (invertHeadPeers (headPeers s)) (heads (changes s), []) (remaining, selected).

(** ** Accessors *)

(** [getPeerHeads(id)]: what [headPeers] holds under [id], as an array, and
    the empty array when it holds nothing there. *)
Definition getPeerHeads (s : HeadSyncer) (id : string) : list string :=
  match JsMap.get id (headPeers s) with
  | Some found => found
  | None => []
  end.

(** [getLatestHeads()]. *)
Definition getLatestHeads (s : HeadSyncer) : list string := heads (changes s).

(** ** Ingesting into a coordinator that [init] has built *)

(** A call that completes or throws. *)
Inductive Completion (A : Type) :=
| Completes (a : A)
| Throws (message : string).

Arguments Completes {A} _.
Arguments Throws {A} _.

(** Calling [peers.add] on an array: arrays have no [add].  (The text of the
    message is the engine's.) *)
Definition addIsNotAFunction : string := "TypeError: peers.add is not a function".

(** [getOrDefault(this.headPeers, key, new Set()).add(peer)] on the values
    the map holds at run time.  Arrays are truthy, so an array found under
    [key] is what [getOrDefault] returns. *)
Definition addPeerLoaded (key peer : string) (m : JsMap.t PeersValue)
  : Completion (JsMap.t PeersValue) :=
  let '(peers, m1) := getOrDefault m key (SetOfPeers JsSet.empty) in
  match peers with
  | SetOfPeers entry => Completes (JsMap.set key (SetOfPeers (JsSet.add peer entry)) m1)
  | ArrayOfSets _ => Throws addIsNotAFunction
  end.

(** The body of the [for] loop of [ingestChanges], on such a coordinator. *)
Definition ingestChangeLoaded (peer : string) (s : LoadedSyncer)
  (change : PartialChange) : Completion LoadedSyncer :=
  let '(result, g) := addChange change (ld_changes s) in
  match result with
  | new_head removedHeads _ =>
      match addPeerLoaded (hash change) peer (ld_headPeers s) with
      | Completes withPeer =>
          Completes
            {| ld_changes := g;
               ld_headPeers :=
                 fold_left (fun m h => JsMap.delete h m) removedHeads withPeer |}
      | Throws e => Throws e
      end
  | already_exists =>
      if JsSet.has (hash change) (heads g)
      then match addPeerLoaded (hash change) peer (ld_headPeers s) with
           | Completes withPeer => Completes {| ld_changes := g; ld_headPeers := withPeer |}
           | Throws e => Throws e
           end
      else Completes {| ld_changes := g; ld_headPeers := ld_headPeers s |}
  | was_missing => Completes {| ld_changes := g; ld_headPeers := ld_headPeers s |}
  end.

(** The [for] loop: it ends where the first exception leaves it, and the
    save after it is then not reached. *)
Fixpoint applyBatchLoaded (peer : string) (batch : list PartialChange)
  (s : LoadedSyncer) : Completion LoadedSyncer :=
  match batch with
  | [] => Completes s
  | change :: rest =>
      match ingestChangeLoaded peer s change with
      | Completes s' => applyBatchLoaded peer rest s'
      | Throws e => Throws e
      end
  end.

(** ** [ingestChanges] as a whole on such a coordinator *)

(** What [JSON.stringify] leaves of a value of [headPeers]: the ids of a set
    of peers (through [Array.from]); of an array of sets, one empty object
    per set, a [Set] having no enumerable property of its own. *)
Inductive SavedPeers :=
| SavedIds (ids : list string)
| SavedEmptyObjects (count : nat).

Definition savedPeers (v : PeersValue) : SavedPeers :=
  match v with
  | SetOfPeers peers => SavedIds peers
  | ArrayOfSets sets => SavedEmptyObjects (List.length sets)
  end.

Record LoadedPojo := mkLoadedPojo {
  lp_changes : ChangeGraphPojo;
  lp_headPeers : list (string * SavedPeers)
}.

(** [HeadSyncer.pojo] on the values held at run time. *)
Definition pojoLoaded (s : LoadedSyncer) : LoadedPojo :=
  {| lp_changes := graphPojo (ld_changes s);
     lp_headPeers :=
       objectOrder (map (fun kv => (fst kv, savedPeers (snd kv))) (ld_headPeers s)) |}.

(** The text of such a snapshot, kept abstract as [Blob] is. *)
Inductive LoadedBlob := JsonLoaded (p : LoadedPojo).

(** The coordinator as the exception leaves it: [addChange] has run on the
    change, and [getOrDefault] has found the array and stored nothing. *)
Definition memoryAtThrow (s : LoadedSyncer) (change : PartialChange) : LoadedSyncer :=
  {| ld_changes := snd (addChange change (ld_changes s));
     ld_headPeers := ld_headPeers s |}.

(** The [for] loop with the coordinator it leaves behind: after the whole
    batch, or where an exception stopped it. *)
Fixpoint runBatchLoaded (peer : string) (batch : list PartialChange)
  (s : LoadedSyncer) : LoadedSyncer * option string :=
  match batch with
  | [] => (s, None)
  | change :: rest =>
      match ingestChangeLoaded peer s change with
      | Completes s' => runBatchLoaded peer rest s'
      | Throws e => (memoryAtThrow s change, Some e)
      end
  end.

Inductive LoadedCall := SaveLoaded (data : LoadedBlob).

Section LoadedStorage.

Variables StorageState StorageError : Type.

Variable storageSave : LoadedBlob -> StorageState -> option StorageError * StorageState.

Record LoadedWorld := mkLoadedWorld {
  lw_syncer : LoadedSyncer;
  lw_store : StorageState;
  lw_calls : list LoadedCall
}.

(** What the promise of [ingestChanges] rejects with: an exception of the
    loop, or what [storage.save] rejected with. *)
Inductive Rejection :=
| ExceptionThrown (message : string)
| SaveRejected (e : StorageError).

(** [ingestChanges]: the loop, then, if the loop got through, the save. *)
Definition ingestChangesLoaded (peer : string) (batch : list PartialChange)
  (w : LoadedWorld) : (unit + Rejection) * LoadedWorld :=
  match runBatchLoaded peer batch (lw_syncer w) with
  | (s, Some message) =>
      (inr (ExceptionThrown message),
       {| lw_syncer := s; lw_store := lw_store w; lw_calls := lw_calls w |})
  | (s, None) =>
      let data := JsonLoaded (pojoLoaded s) in
      let '(outcome, st) := storageSave data (lw_store w) in
      (match outcome with None => inl tt | Some e => inr (SaveRejected e) end,
       {| lw_syncer := s; lw_store := st; lw_calls := lw_calls w ++ [SaveLoaded data] |})
  end.

End LoadedStorage.

Arguments mkLoadedWorld {StorageState} _ _ _.
Arguments lw_syncer {StorageState} _.
Arguments lw_store {StorageState} _.
Arguments lw_calls {StorageState} _.
Arguments ExceptionThrown {StorageError} _.
Arguments SaveRejected {StorageError} _.
Arguments ingestChangesLoaded {StorageState StorageError} _ _ _ _.

(** ** Notions used in the proofs *)

(** The set stored under [k], empty when there is none. *)
Definition entryOf (k : string) (m : JsMap.t JsSet.t) : JsSet.t :=
  match JsMap.get k m with Some e => e | None => JsSet.empty end.

(** [s] after deleting every element of [xs], in turn. *)
Definition deleteAll (xs : list string) (s : JsSet.t) : JsSet.t :=
  fold_left (fun acc x => JsSet.delete x acc) xs s.

(** Every head is a key of [nodes]. *)
Definition headsKnown (g : ChangeGraph) : Prop :=
  forall h, In h (heads g) -> JsMap.has h (nodes g) = true.

(** What holds of a coordinator between two [ingestChanges] calls. *)
Definition syncerInvariant (s : HeadSyncer) : Prop :=
  headsKnown (changes s) /\ JsMap.keys (headPeers s) = heads (changes s).

(** [h] has been ingested from [peer]: it is known, and as long as it is a
    head, [peer] is recorded for it. *)
Definition settled (peer h : string) (s : HeadSyncer) : Prop :=
  JsMap.has h (nodes (changes s)) = true
  /\ (In h (heads (changes s)) ->
      exists peers, JsMap.get h (headPeers s) = Some peers /\ In peer peers).

(** What the scan over [peerHeads] knows after the entries [seen]: nobody
    brings anything, or [best] is the first largest among them. *)
Definition scanned (remaining : JsSet.t) (seen : JsMap.t JsSet.t)
  (best : option (string * JsSet.t)) : Prop :=
  match best with
  | None => forall q hs, In (q, hs) seen -> gain remaining hs = 0
  | Some (p, i) =>
      exists attributed,
        i = JsSet.intersection attributed remaining
        /\ firstLargest seen remaining p attributed
  end.

(** No entry of [headPeers] holds an empty set. *)
Definition peersRecorded (s : HeadSyncer) : Prop :=
  forall h peers, JsMap.get h (headPeers s) = Some peers -> peers <> [].

(** Every key of [nodes] is a head or a dependency of some key, and every
    missing hash is a dependency of some key. *)
Definition accountedFor (g : ChangeGraph) : Prop :=
  (forall k, JsMap.has k (nodes g) = true -> In k (heads g) \/ listedAsDep k g)
  /\ (forall m, In m (missing g) -> listedAsDep m g).

(** The containers of a graph hold no key and no element twice. *)
Definition graphWellFormed (g : ChangeGraph) : Prop :=
  NoDup (JsMap.keys (nodes g)) /\ NoDup (heads g) /\ NoDup (missing g).

(** Every dependency of a key of [nodes] is a key of [nodes]. *)
Definition depsKnown (g : ChangeGraph) : Prop :=
  forall k ds d, JsMap.get k (nodes g) = Some ds -> In d ds ->
                 JsMap.has d (nodes g) = true.

(** The changes of [cs] come in causal order after the hashes [known]:
    each one after every change it depends on. *)
Fixpoint inCausalOrder (known : list string) (cs : list PartialChange) : Prop :=
  match cs with
  | [] => True
  | c :: rest =>
      (forall d, In d (deps c) -> In d known)
      /\ inCausalOrder (hash c :: known) rest
  end.

(** What a graph fed in causal order keeps, [known] being the hashes fed. *)
Definition causalInvariant (known : list string) (g : ChangeGraph) : Prop :=
  (forall k, In k known -> JsMap.has k (nodes g) = true)
  /\ depsKnown g /\ missing g = [] /\ headInvariant g.

(** No set of the index holds a head twice. *)
Definition entriesDistinct (m : JsMap.t JsSet.t) : Prop :=
  forall p hs, JsMap.get p m = Some hs -> NoDup hs.

(** * Properties *)

(** ** Sets *)

Lemma JsSet_has_true (x : string) (s : JsSet.t) :
  JsSet.has x s = true <-> In x s.
Proof.
  unfold JsSet.has. rewrite existsb_exists. split.
  - intros [y [Hy Heq]]. apply String.eqb_eq in Heq. now subst.
  - intros H. exists x. split; [assumption | apply String.eqb_refl].
Qed.

Lemma JsSet_has_false (x : string) (s : JsSet.t) :
  JsSet.has x s = false <-> ~ In x s.
Proof.
  rewrite <- JsSet_has_true. destruct (JsSet.has x s); split; congruence.
Qed.

Lemma JsSet_in_add (x y : string) (s : JsSet.t) :
  In y (JsSet.add x s) <-> In y s \/ y = x.
Proof.
  unfold JsSet.add. destruct (JsSet.has x s) eqn:E.
  - apply JsSet_has_true in E. split; [now left | intros [H | ->]; assumption].
  - rewrite in_app_iff. simpl. intuition congruence.
Qed.

Lemma JsSet_in_delete (x y : string) (s : JsSet.t) :
  In y (JsSet.delete x s) <-> In y s /\ y <> x.
Proof.
  unfold JsSet.delete. rewrite filter_In, negb_true_iff, String.eqb_neq.
  intuition congruence.
Qed.

Lemma JsSet_in_intersection (x : string) (a b : JsSet.t) :
  In x (JsSet.intersection a b) <-> In x a /\ In x b.
Proof.
  unfold JsSet.intersection. now rewrite filter_In, JsSet_has_true.
Qed.

Lemma JsSet_in_difference (x : string) (a b : JsSet.t) :
  In x (JsSet.difference a b) <-> In x a /\ ~ In x b.
Proof.
  unfold JsSet.difference.
  now rewrite filter_In, negb_true_iff, JsSet_has_false.
Qed.

Lemma JsSet_add_nodup (x : string) (s : JsSet.t) :
  NoDup s -> NoDup (JsSet.add x s).
Proof.
  intros H. unfold JsSet.add. destruct (JsSet.has x s) eqn:E; [assumption |].
  apply JsSet_has_false in E. apply NoDup_app; [assumption | | ].
  - constructor; [intros [] | constructor].
  - intros y Hy [<- | []]. contradiction.
Qed.

Lemma JsSet_from_array_acc (l : list string) (acc : JsSet.t) :
  (forall x, In x (fold_left (fun s y => JsSet.add y s) l acc) <-> In x acc \/ In x l)
  /\ (NoDup acc -> NoDup (fold_left (fun s y => JsSet.add y s) l acc)).
Proof.
  revert acc. induction l as [| a l IH]; intros acc; simpl.
  - split; [intros x; tauto | trivial].
  - destruct (IH (JsSet.add a acc)) as [Hin Hnd]. split.
    + intros x. rewrite Hin, JsSet_in_add. intuition congruence.
    + intros H. apply Hnd. now apply JsSet_add_nodup.
Qed.

Lemma JsSet_in_from_array (x : string) (l : list string) :
  In x (JsSet.from_array l) <-> In x l.
Proof.
  unfold JsSet.from_array. destruct (JsSet_from_array_acc l JsSet.empty) as [H _].
  rewrite H. simpl. tauto.
Qed.

Lemma JsSet_from_array_nodup (l : list string) : NoDup (JsSet.from_array l).
Proof.
  unfold JsSet.from_array. apply JsSet_from_array_acc. constructor.
Qed.

(** ** Maps *)

Lemma JsMap_get_set_same {V} (k : string) (v : V) (m : JsMap.t V) :
  JsMap.get k (JsMap.set k v m) = Some v.
Proof.
  induction m as [| [k' v'] m IH]; simpl.
  - now rewrite String.eqb_refl.
  - destruct (String.eqb k k') eqn:E; simpl.
    + now rewrite String.eqb_refl.
    + now rewrite E.
Qed.

Lemma JsMap_get_set_other {V} (k k' : string) (v : V) (m : JsMap.t V) :
  k <> k' -> JsMap.get k' (JsMap.set k v m) = JsMap.get k' m.
Proof.
  intros Hne. induction m as [| [k0 v0] m IH]; simpl.
  - apply not_eq_sym in Hne. apply String.eqb_neq in Hne. now rewrite Hne.
  - destruct (String.eqb k k0) eqn:E; simpl.
    + apply String.eqb_eq in E. subst k0.
      apply not_eq_sym in Hne. apply String.eqb_neq in Hne. now rewrite Hne.
    + now rewrite IH.
Qed.

Lemma JsMap_set_get_same {V} (k : string) (v : V) (m : JsMap.t V) :
  JsMap.get k m = Some v -> JsMap.set k v m = m.
Proof.
  induction m as [| [k' v'] m IH]; simpl; [discriminate |].
  destruct (String.eqb k k') eqn:E.
  - apply String.eqb_eq in E. intros [= ->]. now subst.
  - intros H. now rewrite IH.
Qed.

Lemma JsMap_has_keys {V} (k : string) (m : JsMap.t V) :
  JsMap.has k m = true <-> In k (JsMap.keys m).
Proof.
  unfold JsMap.has. induction m as [| [k' v'] m IH]; simpl.
  - split; [discriminate | tauto].
  - destruct (String.eqb k k') eqn:E.
    + apply String.eqb_eq in E. subst. tauto.
    + apply String.eqb_neq in E. rewrite IH. intuition congruence.
Qed.

Lemma JsMap_has_false_keys {V} (k : string) (m : JsMap.t V) :
  JsMap.has k m = false <-> ~ In k (JsMap.keys m).
Proof.
  rewrite <- JsMap_has_keys. destruct (JsMap.has k m); split; congruence.
Qed.

Lemma JsMap_has_get {V} (k : string) (m : JsMap.t V) :
  JsMap.has k m = true <-> exists v, JsMap.get k m = Some v.
Proof.
  unfold JsMap.has. destruct (JsMap.get k m) as [v |].
  - split; [intros _; now exists v | trivial].
  - split; [discriminate | intros [v H]; discriminate].
Qed.

Lemma JsMap_get_in {V} (k : string) (v : V) (m : JsMap.t V) :
  JsMap.get k m = Some v -> In (k, v) m.
Proof.
  induction m as [| [k' v'] m IH]; simpl; [discriminate |].
  destruct (String.eqb k k') eqn:E.
  - apply String.eqb_eq in E. intros [= ->]. subst. now left.
  - intros H. right. now apply IH.
Qed.

Lemma JsMap_in_get {V} (k : string) (v : V) (m : JsMap.t V) :
  NoDup (JsMap.keys m) -> In (k, v) m -> JsMap.get k m = Some v.
Proof.
  induction m as [| [k' v'] m IH]; simpl; [tauto |].
  intros Hnd [Heq | Hin].
  - injection Heq as -> ->. now rewrite String.eqb_refl.
  - inversion Hnd as [| ? ? Hnotin Hnd']; subst.
    destruct (String.eqb k k') eqn:E.
    + apply String.eqb_eq in E. subst k'. exfalso. apply Hnotin.
      change (In (fst (k, v)) (map fst m)). now apply in_map.
    + now apply IH.
Qed.

Lemma JsMap_keys_set {V} (k : string) (v : V) (m : JsMap.t V) :
  JsMap.keys (JsMap.set k v m) = JsSet.add k (JsMap.keys m).
Proof.
  unfold JsSet.add. induction m as [| [k' v'] m IH]; simpl; [reflexivity |].
  destruct (String.eqb k k') eqn:E; simpl.
  - apply String.eqb_eq in E. now subst.
  - rewrite IH. unfold JsMap.keys. now destruct (JsSet.has k (map fst m)).
Qed.

Lemma JsMap_keys_delete {V} (k : string) (m : JsMap.t V) :
  JsMap.keys (JsMap.delete k m) = JsSet.delete k (JsMap.keys m).
Proof.
  unfold JsMap.keys, JsMap.delete, JsSet.delete.
  induction m as [| [k' v'] m IH]; simpl; [reflexivity |].
  destruct (String.eqb k k'); simpl; now rewrite IH.
Qed.

Lemma JsMap_get_delete_other {V} (k k' : string) (m : JsMap.t V) :
  k <> k' -> JsMap.get k' (JsMap.delete k m) = JsMap.get k' m.
Proof.
  intros Hne. unfold JsMap.delete.
  induction m as [| [k0 v0] m IH]; simpl; [reflexivity |].
  destruct (String.eqb k k0) eqn:E; simpl.
  - apply String.eqb_eq in E. subst k0.
    apply not_eq_sym in Hne. apply String.eqb_neq in Hne. now rewrite Hne.
  - now rewrite IH.
Qed.

Lemma JsMap_set_nodup {V} (k : string) (v : V) (m : JsMap.t V) :
  NoDup (JsMap.keys m) -> NoDup (JsMap.keys (JsMap.set k v m)).
Proof.
  rewrite JsMap_keys_set. apply JsSet_add_nodup.
Qed.

Lemma JsSet_delete_absent (x : string) (s : JsSet.t) :
  ~ In x s -> JsSet.delete x s = s.
Proof.
  intros H. unfold JsSet.delete. induction s as [| y s IH]; simpl; [reflexivity |].
  destruct (String.eqb x y) eqn:E; simpl.
  - apply String.eqb_eq in E. subst. exfalso. apply H. now left.
  - rewrite IH; [reflexivity | intros Hin; apply H; now right].
Qed.

Lemma JsSet_has_delete_other (x y : string) (s : JsSet.t) :
  x <> y -> JsSet.has y (JsSet.delete x s) = JsSet.has y s.
Proof.
  intros Hne. destruct (JsSet.has y s) eqn:E.
  - apply JsSet_has_true. apply JsSet_in_delete. apply JsSet_has_true in E.
    split; [assumption | congruence].
  - apply JsSet_has_false. rewrite JsSet_in_delete. apply JsSet_has_false in E. tauto.
Qed.

(** ** Entries that hold sets *)

Lemma addToEntry_unfold (k x : string) (m : JsMap.t JsSet.t) :
  addToEntry k x m =
  match JsMap.get k m with
  | Some e => JsMap.set k (JsSet.add x e) m
  | None => JsMap.set k (JsSet.add x JsSet.empty) (JsMap.set k JsSet.empty m)
  end.
Proof.
  unfold addToEntry, getOrDefault. now destruct (JsMap.get k m).
Qed.

Lemma get_addToEntry_same (k x : string) (m : JsMap.t JsSet.t) :
  JsMap.get k (addToEntry k x m) = Some (JsSet.add x (entryOf k m)).
Proof.
  rewrite addToEntry_unfold. unfold entryOf.
  destruct (JsMap.get k m); apply JsMap_get_set_same.
Qed.

Lemma get_addToEntry_other (k k' x : string) (m : JsMap.t JsSet.t) :
  k <> k' -> JsMap.get k' (addToEntry k x m) = JsMap.get k' m.
Proof.
  intros Hne. rewrite addToEntry_unfold.
  destruct (JsMap.get k m); now rewrite !JsMap_get_set_other.
Qed.

Lemma keys_addToEntry (k x : string) (m : JsMap.t JsSet.t) :
  JsMap.keys (addToEntry k x m) = JsSet.add k (JsMap.keys m).
Proof.
  rewrite addToEntry_unfold. destruct (JsMap.get k m) eqn:E.
  - apply JsMap_keys_set.
  - rewrite !JsMap_keys_set. unfold JsSet.add at 1.
    assert (H : JsSet.has k (JsSet.add k (JsMap.keys m)) = true).
    { apply JsSet_has_true, JsSet_in_add. now right. }
    now rewrite H.
Qed.

Lemma addToEntry_present (k x : string) (m : JsMap.t JsSet.t) (e : JsSet.t) :
  JsMap.get k m = Some e -> JsSet.has x e = true -> addToEntry k x m = m.
Proof.
  intros Hget Hhas. rewrite addToEntry_unfold, Hget.
  unfold JsSet.add. rewrite Hhas. now apply JsMap_set_get_same.
Qed.

Lemma addToEntry_nodup (k x : string) (m : JsMap.t JsSet.t) :
  NoDup (JsMap.keys m) -> NoDup (JsMap.keys (addToEntry k x m)).
Proof.
  rewrite keys_addToEntry. apply JsSet_add_nodup.
Qed.

(** ** The loop over the dependencies *)

Lemma depStep_heads known st d :
  l_heads (depStep known st d) = JsSet.delete d (l_heads st).
Proof.
  unfold depStep. destruct (JsSet.has d (l_heads st)) eqn:E;
    destruct (negb (JsMap.has d known)); simpl; try reflexivity;
    symmetry; apply JsSet_delete_absent; now apply JsSet_has_false.
Qed.

Lemma depStep_removedHeads known st d :
  l_removedHeads (depStep known st d) =
  l_removedHeads st ++ (if JsSet.has d (l_heads st) then [d] else []).
Proof.
  unfold depStep. destruct (JsSet.has d (l_heads st));
    destruct (negb (JsMap.has d known)); simpl; now rewrite ?app_nil_r.
Qed.

Lemma depStep_missing known st d :
  l_missing (depStep known st d) =
  if JsMap.has d known then l_missing st else JsSet.add d (l_missing st).
Proof.
  unfold depStep. destruct (JsSet.has d (l_heads st));
    destruct (JsMap.has d known); reflexivity.
Qed.

Lemma depStep_missingDeps known st d :
  l_missingDeps (depStep known st d) =
  l_missingDeps st ++ (if JsMap.has d known then [] else [d]).
Proof.
  unfold depStep. destruct (JsSet.has d (l_heads st));
    destruct (JsMap.has d known); simpl; now rewrite ?app_nil_r.
Qed.

Lemma depsLoop_heads known ds st :
  l_heads (fold_left (depStep known) ds st) = deleteAll ds (l_heads st).
Proof.
  revert st. induction ds as [| d ds IH]; intros st; simpl; [reflexivity |].
  now rewrite IH, depStep_heads.
Qed.

Lemma in_deleteAll (x : string) (xs : list string) (s : JsSet.t) :
  In x (deleteAll xs s) <-> In x s /\ ~ In x xs.
Proof.
  unfold deleteAll. revert s. induction xs as [| y xs IH]; intros s; simpl.
  - tauto.
  - rewrite IH, JsSet_in_delete. intuition congruence.
Qed.

Lemma depsLoop_removedHeads known ds st :
  NoDup ds ->
  l_removedHeads (fold_left (depStep known) ds st) =
  l_removedHeads st ++ filter (fun d => JsSet.has d (l_heads st)) ds.
Proof.
  revert st. induction ds as [| d ds IH]; intros st Hnd; simpl.
  - now rewrite app_nil_r.
  - inversion Hnd as [| ? ? Hnotin Hnd']; subst.
    rewrite IH by assumption.
    rewrite depStep_removedHeads, depStep_heads, <- app_assoc. f_equal.
    assert (Hfilter :
      filter (fun x => JsSet.has x (JsSet.delete d (l_heads st))) ds =
      filter (fun x => JsSet.has x (l_heads st)) ds).
    { apply filter_ext_in. intros x Hx. apply JsSet_has_delete_other.
      intros ->. contradiction. }
    rewrite Hfilter. now destruct (JsSet.has d (l_heads st)).
Qed.

Lemma depsLoop_missingDeps known ds st :
  l_missingDeps (fold_left (depStep known) ds st) =
  l_missingDeps st ++ filter (fun d => negb (JsMap.has d known)) ds.
Proof.
  revert st. induction ds as [| d ds IH]; intros st; simpl.
  - now rewrite app_nil_r.
  - rewrite IH, depStep_missingDeps, <- app_assoc. f_equal.
    now destruct (JsMap.has d known).
Qed.

Lemma depsLoop_missing known ds st x :
  In x (l_missing (fold_left (depStep known) ds st)) <->
  In x (l_missing st) \/ (In x ds /\ JsMap.has x known = false).
Proof.
  revert st. induction ds as [| d ds IH]; intros st; simpl.
  - tauto.
  - rewrite IH, depStep_missing. destruct (JsMap.has d known) eqn:E.
    + intuition (subst; congruence).
    + rewrite JsSet_in_add. intuition (subst; auto).
Qed.

(** The heads left by the loop are the heads it started with, without the
    heads it reports as removed. *)
Lemma depsLoop_heads_removed known ds st :
  l_removedHeads st = [] ->
  l_heads (fold_left (depStep known) ds st) =
  deleteAll (l_removedHeads (fold_left (depStep known) ds st)) (l_heads st).
Proof.
  intros Hstart.
  enough (H : forall ds cur start,
             l_heads cur = deleteAll (l_removedHeads cur) start ->
             l_heads (fold_left (depStep known) ds cur) =
             deleteAll (l_removedHeads (fold_left (depStep known) ds cur)) start).
  { apply H. now rewrite Hstart. }
  clear. induction ds as [| d ds IH]; intros cur start Hcur; simpl; [assumption |].
  apply IH. rewrite depStep_heads, depStep_removedHeads.
  unfold deleteAll in *. rewrite fold_left_app.
  destruct (JsSet.has d (l_heads cur)) eqn:E; simpl.
  - now rewrite Hcur.
  - rewrite <- Hcur. apply JsSet_delete_absent. now apply JsSet_has_false.
Qed.

(** ** [addChange], case by case *)

Lemma addChange_known (c : PartialChange) (g : ChangeGraph) :
  JsMap.has (hash c) (nodes g) = true -> addChange c g = (already_exists, g).
Proof.
  intros H. unfold addChange. now rewrite H.
Qed.

Lemma addChange_filled (c : PartialChange) (g : ChangeGraph) :
  JsMap.has (hash c) (nodes g) = false ->
  JsSet.has (hash c) (missing g) = true ->
  addChange c g =
  (was_missing,
   {| nodes := JsMap.set (hash c) (deps c) (nodes g);
      missing := JsSet.delete (hash c) (missing g);
      heads := heads g |}).
Proof.
  intros H1 H2. unfold addChange. now rewrite H1, H2.
Qed.

Lemma addChange_fresh (c : PartialChange) (g : ChangeGraph) :
  JsMap.has (hash c) (nodes g) = false ->
  JsSet.has (hash c) (missing g) = false ->
  let nodes1 := JsMap.set (hash c) (deps c) (nodes g) in
  let final :=
    fold_left (depStep nodes1) (JsSet.from_array (deps c))
      {| l_heads := JsSet.add (hash c) (heads g);
         l_missing := missing g;
         l_removedHeads := [];
         l_missingDeps := [] |} in
  addChange c g =
  (new_head (l_removedHeads final) (l_missingDeps final),
   {| nodes := nodes1; missing := l_missing final; heads := l_heads final |}).
Proof.
  intros H1 H2. unfold addChange. now rewrite H1, H2.
Qed.

(** The three cases of [addChange], as a case analysis for proofs. *)
Lemma addChange_cases (c : PartialChange) (g : ChangeGraph) :
  (JsMap.has (hash c) (nodes g) = true /\ addChange c g = (already_exists, g))
  \/ (JsMap.has (hash c) (nodes g) = false
      /\ JsSet.has (hash c) (missing g) = true
      /\ addChange c g =
         (was_missing,
          {| nodes := JsMap.set (hash c) (deps c) (nodes g);
             missing := JsSet.delete (hash c) (missing g);
             heads := heads g |}))
  \/ (JsMap.has (hash c) (nodes g) = false
      /\ JsSet.has (hash c) (missing g) = false
      /\ exists final,
           final =
           fold_left (depStep (JsMap.set (hash c) (deps c) (nodes g)))
             (JsSet.from_array (deps c))
             {| l_heads := JsSet.add (hash c) (heads g);
                l_missing := missing g;
                l_removedHeads := [];
                l_missingDeps := [] |}
           /\ addChange c g =
              (new_head (l_removedHeads final) (l_missingDeps final),
               {| nodes := JsMap.set (hash c) (deps c) (nodes g);
                  missing := l_missing final;
                  heads := l_heads final |})).
Proof.
  destruct (JsMap.has (hash c) (nodes g)) eqn:H1.
  - left. split; [reflexivity | now apply addChange_known].
  - destruct (JsSet.has (hash c) (missing g)) eqn:H2.
    + right; left. repeat split. now apply addChange_filled.
    + right; right. repeat split. eexists. split; [reflexivity |].
      now apply addChange_fresh.
Qed.

(** C7.  A summary whose hash is neither a key of [nodes] nor in [missing]
    is a new head: [addChange] answers [new_head], stores the hash in [nodes]
    with its deps and adds it to [heads]; then every distinct dep that is in
    [heads] at that point is taken out of [heads] and reported once in
    [removedHeads], and every distinct dep that is not a key of [nodes] at
    that point is put into [missing] and reported once in [missingDeps].
    Nothing else changes, so the hash is a head afterwards unless it names
    itself as a dep. *)
Theorem addChange_new_head (c : PartialChange) (g : ChangeGraph) :
  JsMap.has (hash c) (nodes g) = false ->
  JsSet.has (hash c) (missing g) = false ->
  exists removedHeads missingDeps g',
    addChange c g = (new_head removedHeads missingDeps, g')
    /\ nodes g' = JsMap.set (hash c) (deps c) (nodes g)
    /\ JsMap.get (hash c) (nodes g') = Some (deps c)
    /\ (~ In (hash c) (deps c) -> In (hash c) (heads g'))
    /\ (forall x, In x (heads g') <->
                  (In x (heads g) \/ x = hash c) /\ ~ In x (deps c))
    /\ (forall x, In x removedHeads <->
                  In x (deps c) /\ (In x (heads g) \/ x = hash c))
    /\ (forall x, In x (missing g') <->
                  In x (missing g) \/ (In x (deps c) /\ JsMap.has x (nodes g') = false))
    /\ (forall x, In x missingDeps <->
                  In x (deps c) /\ JsMap.has x (nodes g') = false)
    /\ NoDup removedHeads /\ NoDup missingDeps.
Proof.
  intros H1 H2. pose proof (addChange_fresh c g H1 H2) as Heq. cbv zeta in Heq.
  set (nodes1 := JsMap.set (hash c) (deps c) (nodes g)) in *.
  set (start := {| l_heads := JsSet.add (hash c) (heads g);
                   l_missing := missing g;
                   l_removedHeads := [];
                   l_missingDeps := [] |}) in *.
  set (ds := JsSet.from_array (deps c)) in *.
  assert (Hnd : NoDup ds) by apply JsSet_from_array_nodup.
  assert (Hds : forall x, In x ds <-> In x (deps c))
    by (intros x; apply JsSet_in_from_array).
  assert (Hheads : forall x, In x (l_heads (fold_left (depStep nodes1) ds start)) <->
                             (In x (heads g) \/ x = hash c) /\ ~ In x (deps c)).
  { intros x. rewrite depsLoop_heads, in_deleteAll. simpl.
    now rewrite JsSet_in_add, Hds. }
  eexists _, _, _. split; [exact Heq |]. simpl.
  split; [reflexivity |].
  split; [apply JsMap_get_set_same |].
  split; [intros Hself; apply Hheads; tauto |].
  split; [exact Hheads |].
  split.
  { intros x. rewrite depsLoop_removedHeads by assumption. simpl.
    now rewrite filter_In, JsSet_has_true, JsSet_in_add, Hds. }
  split.
  { intros x. rewrite depsLoop_missing. simpl. now rewrite Hds. }
  split.
  { intros x. rewrite depsLoop_missingDeps. simpl.
    now rewrite filter_In, negb_true_iff, Hds. }
  split.
  - rewrite depsLoop_removedHeads by assumption. simpl. now apply NoDup_filter.
  - rewrite depsLoop_missingDeps. simpl. now apply NoDup_filter.
Qed.

Lemma addChange_new_head_witness :
  exists removedHeads missingDeps g',
    addChange (mkChange "c" ["a"; "b"; "a"])
      {| nodes := [("a", [])]; missing := []; heads := ["a"] |}
    = (new_head removedHeads missingDeps, g')
    /\ removedHeads = ["a"] /\ missingDeps = ["b"]
    /\ heads g' = ["c"] /\ missing g' = ["b"].
Proof.
  destruct (addChange_new_head (mkChange "c" ["a"; "b"; "a"])
              {| nodes := [("a", [])]; missing := []; heads := ["a"] |}
              eq_refl eq_refl) as (rh & md & g' & Heq & _).
  exists rh, md, g'. split; [exact Heq |].
  vm_compute in Heq. injection Heq as <- <- <-. repeat split.
Defined.

(** C6.  From the empty graph, adding B with deps [A] (A a different, not yet
    ingested change) leaves A in [missing] and B in [heads]; adding A with no
    deps afterwards answers [was_missing], takes A out of [missing] and does
    not make A a head. *)
Theorem missing_then_filled (A B : string) :
  A <> B ->
  let afterB := snd (addChange (mkChange B [A]) emptyGraph) in
  let afterA := addChange (mkChange A []) afterB in
  In A (missing afterB) /\ In B (heads afterB)
  /\ fst afterA = was_missing
  /\ ~ In A (missing (snd afterA)) /\ ~ In A (heads (snd afterA)).
Proof.
  intros Hne.
  assert (HAB : String.eqb A B = false) by now apply String.eqb_neq.
  assert (HBA : String.eqb B A = false) by (apply String.eqb_neq; congruence).
  unfold addChange, depStep, JsSet.add, JsSet.delete, JsSet.has, JsMap.has; simpl.
  rewrite ?HAB, ?HBA, ?String.eqb_refl; simpl.
  rewrite ?HAB, ?HBA, ?String.eqb_refl; simpl.
  repeat split; try tauto.
  intros [H | []]. congruence.
Qed.

Lemma missing_then_filled_witness :
  let afterB := snd (addChange (mkChange "B" ["A"]) emptyGraph) in
  let afterA := addChange (mkChange "A" []) afterB in
  In "A" (missing afterB) /\ In "B" (heads afterB)
  /\ fst afterA = was_missing
  /\ ~ In "A" (missing (snd afterA)) /\ ~ In "A" (heads (snd afterA)).
Proof.
  apply (missing_then_filled "A" "B"). discriminate.
Defined.

(** ** What [ingestChanges] keeps true *)

Lemma JsMap_has_set {V} (k k' : string) (v : V) (m : JsMap.t V) :
  JsMap.has k' (JsMap.set k v m) = true <-> JsMap.has k' m = true \/ k' = k.
Proof.
  now rewrite !JsMap_has_keys, JsMap_keys_set, JsSet_in_add.
Qed.

Lemma keys_deleteEntries {V} (rh : list string) (m : JsMap.t V) :
  JsMap.keys (fold_left (fun m h => JsMap.delete h m) rh m) =
  deleteAll rh (JsMap.keys m).
Proof.
  unfold deleteAll. revert m. induction rh as [| h rh IH]; intros m; simpl.
  - reflexivity.
  - now rewrite IH, JsMap_keys_delete.
Qed.

Lemma get_deleteEntries_other {V} (rh : list string) (k : string) (m : JsMap.t V) :
  ~ In k rh ->
  JsMap.get k (fold_left (fun m h => JsMap.delete h m) rh m) = JsMap.get k m.
Proof.
  revert m. induction rh as [| h rh IH]; intros m Hk; simpl; [reflexivity |].
  rewrite IH by (intros H; apply Hk; now right).
  apply JsMap_get_delete_other. intros ->. apply Hk. now left.
Qed.

Lemma addChange_headsKnown (c : PartialChange) (g : ChangeGraph) :
  headsKnown g -> headsKnown (snd (addChange c g)).
Proof.
  intros Hg.
  destruct (addChange_cases c g)
    as [[H1 Heq] | [(H1 & H2 & Heq) | (H1 & H2 & final & Hfinal & Heq)]];
    rewrite Heq; unfold headsKnown; cbn [snd heads nodes]; [assumption | |];
    intros h Hh; apply JsMap_has_set.
  - left. now apply Hg.
  - subst final. rewrite depsLoop_heads, in_deleteAll in Hh. cbn [l_heads] in Hh.
    destruct Hh as [Hh _]. apply JsSet_in_add in Hh.
    destruct Hh as [Hh | ->]; [left; now apply Hg | now right].
Qed.

Lemma ingestChange_invariant (peer : string) (s : HeadSyncer) (c : PartialChange) :
  syncerInvariant s -> syncerInvariant (ingestChange peer s c).
Proof.
  intros [Hknown Hkeys].
  pose proof (addChange_headsKnown c (changes s) Hknown) as Hknown'.
  unfold ingestChange.
  destruct (addChange_cases c (changes s))
    as [[H1 Heq] | [(H1 & H2 & Heq) | (H1 & H2 & final & Hfinal & Heq)]];
    rewrite Heq in *; cbn [snd] in Hknown'.
  - destruct (JsSet.has (hash c) (heads (changes s))) eqn:E;
      split; cbn [changes headPeers]; try assumption.
    rewrite keys_addToEntry, Hkeys. unfold JsSet.add. now rewrite E.
  - split; cbn [changes headPeers heads]; assumption.
  - split; cbn [changes headPeers heads]; [assumption |].
    rewrite keys_deleteEntries, keys_addToEntry, Hkeys.
    subst final. now rewrite depsLoop_heads_removed.
Qed.

Lemma applyBatch_invariant (peer : string) (batch : list PartialChange) (s : HeadSyncer) :
  syncerInvariant s -> syncerInvariant (applyBatch peer batch s).
Proof.
  unfold applyBatch. revert s.
  induction batch as [| c batch IH]; intros s Hs; simpl; [assumption |].
  apply IH. now apply ingestChange_invariant.
Qed.

Lemma reachable_invariant (s : HeadSyncer) : reachable s -> syncerInvariant s.
Proof.
  induction 1 as [| s peer batch _ IH].
  - split; [intros h [] | reflexivity].
  - now apply applyBatch_invariant.
Qed.

(** C3.  After every [ingestChanges] call on a coordinator built from the
    empty one, the keys of [headPeers] are the heads: no key that is not a
    head and no head without a key.  The two even list them in the same
    order. *)
Theorem headPeers_keys_are_heads (s : HeadSyncer) (peer : string)
  (batch : list PartialChange) :
  reachable s ->
  let s' := applyBatch peer batch s in
  (forall h, In h (JsMap.keys (headPeers s')) <-> In h (heads (changes s')))
  /\ JsMap.keys (headPeers s') = heads (changes s').
Proof.
  intros Hs s'.
  assert (H : JsMap.keys (headPeers s') = heads (changes s')).
  { apply (reachable_invariant s'). now constructor. }
  split; [intros h; now rewrite H | exact H].
Qed.

Lemma headPeers_keys_are_heads_witness :
  let s' := applyBatch "p2" [mkChange "c" ["a"; "x"]]
              (applyBatch "p1" [mkChange "a" []; mkChange "b" ["a"; "a"]] emptySyncer) in
  (forall h, In h (JsMap.keys (headPeers s')) <-> In h (heads (changes s')))
  /\ JsMap.keys (headPeers s') = heads (changes s').
Proof.
  apply (headPeers_keys_are_heads
           (applyBatch "p1" [mkChange "a" []; mkChange "b" ["a"; "a"]] emptySyncer)
           "p2" [mkChange "c" ["a"; "x"]]).
  apply reach_ingest. apply reach_empty.
Defined.

(** ** Ingesting a batch again *)

Lemma ingestChange_settled_fixed (peer : string) (s : HeadSyncer) (c : PartialChange) :
  settled peer (hash c) s -> ingestChange peer s c = s.
Proof.
  destruct s as [g hp]. intros [Hknown Hpeer]. cbn [changes headPeers] in *.
  unfold ingestChange. cbn [changes headPeers].
  rewrite (addChange_known c g Hknown).
  destruct (JsSet.has (hash c) (heads g)) eqn:E; [| reflexivity].
  apply JsSet_has_true in E. destruct (Hpeer E) as (peers & Hget & Hin).
  f_equal. apply (addToEntry_present _ _ _ peers Hget). now apply JsSet_has_true.
Qed.

Lemma ingestChange_settles (peer : string) (s : HeadSyncer) (c : PartialChange) :
  syncerInvariant s -> settled peer (hash c) (ingestChange peer s c).
Proof.
  intros [Hknown Hkeys]. unfold ingestChange, settled.
  destruct (addChange_cases c (changes s))
    as [[H1 Heq] | [(H1 & H2 & Heq) | (H1 & H2 & final & Hfinal & Heq)]];
    rewrite Heq.
  - destruct (JsSet.has (hash c) (heads (changes s))) eqn:E;
      cbn [changes headPeers]; (split; [assumption |]); intros Hhead.
    + eexists. split; [apply get_addToEntry_same |].
      apply JsSet_in_add. now right.
    + apply JsSet_has_false in E. contradiction.
  - cbn [changes headPeers nodes heads]. split.
    + apply JsMap_has_set. now right.
    + intros Hhead. apply Hknown in Hhead. congruence.
  - cbn [changes headPeers nodes heads]. split.
    + apply JsMap_has_set. now right.
    + intros Hhead. subst final.
      rewrite depsLoop_heads_removed in Hhead by reflexivity.
      apply in_deleteAll in Hhead. destruct Hhead as [_ Hkept].
      rewrite get_deleteEntries_other by assumption.
      eexists. split; [apply get_addToEntry_same |].
      apply JsSet_in_add. now right.
Qed.

Lemma ingestChange_keeps_settled (peer peer' h : string) (s : HeadSyncer)
  (c : PartialChange) :
  settled peer h s -> settled peer h (ingestChange peer' s c).
Proof.
  intros [Hknown Hpeer]. unfold ingestChange, settled.
  assert (Hadd : forall hp : JsMap.t JsSet.t,
            (In h (heads (changes s)) ->
             exists peers : JsSet.t, JsMap.get h hp = Some peers /\ In peer peers) ->
            In h (heads (changes s)) ->
            exists peers,
              JsMap.get h (addToEntry (hash c) peer' hp) = Some peers /\ In peer peers).
  { intros hp Hhp Hhead. destruct (Hhp Hhead) as (peers & Hget & Hin).
    destruct (string_dec (hash c) h) as [-> | Hne].
    - rewrite get_addToEntry_same. unfold entryOf. rewrite Hget.
      eexists. split; [reflexivity |]. apply JsSet_in_add. now left.
    - rewrite get_addToEntry_other by assumption. now exists peers. }
  destruct (addChange_cases c (changes s))
    as [[H1 Heq] | [(H1 & H2 & Heq) | (H1 & H2 & final & Hfinal & Heq)]];
    rewrite Heq.
  - destruct (JsSet.has (hash c) (heads (changes s)));
      cbn [changes headPeers]; (split; [assumption |]); auto.
  - cbn [changes headPeers nodes heads]. split; [| assumption].
    apply JsMap_has_set. now left.
  - cbn [changes headPeers nodes heads]. split.
    + apply JsMap_has_set. now left.
    + intros Hhead. subst final.
      rewrite depsLoop_heads_removed in Hhead by reflexivity.
      apply in_deleteAll in Hhead. cbn [l_heads] in Hhead.
      destruct Hhead as [Hwas Hkept].
      rewrite get_deleteEntries_other by assumption.
      apply Hadd; [assumption |].
      apply JsSet_in_add in Hwas. destruct Hwas as [Hwas | ->]; [assumption |].
      congruence.
Qed.

Lemma applyBatch_keeps_settled (peer peer' h : string) (batch : list PartialChange)
  (s : HeadSyncer) :
  settled peer h s -> settled peer h (applyBatch peer' batch s).
Proof.
  unfold applyBatch. revert s.
  induction batch as [| c batch IH]; intros s Hs; simpl; [assumption |].
  apply IH. now apply ingestChange_keeps_settled.
Qed.

Lemma applyBatch_settles (peer : string) (batch : list PartialChange) (s : HeadSyncer) :
  syncerInvariant s ->
  forall c, In c batch -> settled peer (hash c) (applyBatch peer batch s).
Proof.
  revert s. induction batch as [| c0 batch IH]; intros s Hs c Hc; [destruct Hc |].
  change (applyBatch peer (c0 :: batch) s)
    with (applyBatch peer batch (ingestChange peer s c0)).
  destruct Hc as [-> | Hc].
  - apply applyBatch_keeps_settled. now apply ingestChange_settles.
  - apply IH; [now apply ingestChange_invariant | assumption].
Qed.

Lemma applyBatch_settled_fixed (peer : string) (batch : list PartialChange)
  (s : HeadSyncer) :
  (forall c, In c batch -> settled peer (hash c) s) -> applyBatch peer batch s = s.
Proof.
  unfold applyBatch. induction batch as [| c batch IH]; intros H; simpl; [reflexivity |].
  rewrite ingestChange_settled_fixed by (apply H; now left).
  apply IH. intros c' Hc'. apply H. now right.
Qed.

(** C5.  [addChange] of a hash that is already a key of [nodes] answers
    [already_exists] and leaves [nodes], [heads] and [missing] as they were;
    and on a coordinator built from the empty one, ingesting a batch from a
    peer a second time right after the first leaves [nodes], [heads],
    [missing] and [headPeers] exactly as the first left them. *)
Theorem ingest_is_idempotent (c : PartialChange) (g : ChangeGraph)
  (s : HeadSyncer) (peer : string) (batch : list PartialChange) :
  (JsMap.has (hash c) (nodes g) = true -> addChange c g = (already_exists, g))
  /\ (reachable s ->
      applyBatch peer batch (applyBatch peer batch s) = applyBatch peer batch s).
Proof.
  split; [apply addChange_known |].
  intros Hs. apply applyBatch_settled_fixed.
  apply applyBatch_settles. now apply reachable_invariant.
Qed.

Lemma ingest_is_idempotent_witness :
  let g := {| nodes := [("a", ["x"])]; missing := ["x"]; heads := ["a"] |} in
  let batch := [mkChange "r" []; mkChange "h" ["r"; "q"]; mkChange "r" ["h"]] in
  let s := applyBatch "p1" [mkChange "h" ["r"]] emptySyncer in
  addChange (mkChange "a" ["y"]) g = (already_exists, g)
  /\ applyBatch "p2" batch (applyBatch "p2" batch s) = applyBatch "p2" batch s.
Proof.
  intros g batch s.
  destruct (ingest_is_idempotent (mkChange "a" ["y"]) g s "p2" batch) as [H1 H2].
  split.
  - apply H1. reflexivity.
  - apply H2. apply reach_ingest. apply reach_empty.
Defined.

(** ** The save at the end of [ingestChanges] *)

Lemma forEach_ingestChange {S E : Type} (peer : string) (batch : list PartialChange)
  (w : World S) :
  forEach (StorageError := E) batch
    (fun change => mutate (fun s => ingestChange peer s change)) w =
  (inl tt,
   {| syncer := applyBatch peer batch (syncer w); store := store w; calls := calls w |}).
Proof.
  revert w. induction batch as [| c batch IH]; intros w.
  - destruct w. reflexivity.
  - cbn [forEach]. unfold andThen at 1. unfold mutate at 1. now rewrite IH.
Qed.

(** While [headPeers] holds sets, an [ingestChanges] call makes exactly one
    storage call, a save, and what it saves is the snapshot of the
    coordinator after the whole batch.  The call settles as the save does,
    resolving when it resolves and rejecting with the very value it rejects
    with; either way the coordinator in memory is the one the whole batch
    leaves. *)
Theorem ingestChanges_saves_once {S E : Type}
  (storageSave : Blob -> S -> option E * S)
  (peer : string) (batch : list PartialChange) (w : World S) :
  let after := applyBatch peer batch (syncer w) in
  let data := JSON_stringify (pojo after) in
  let saved := storageSave data (store w) in
  ingestChanges storageSave peer batch w =
  (match fst saved with None => inl tt | Some e => inr e end,
   {| syncer := after; store := snd saved; calls := calls w ++ [SaveCall data] |}).
Proof.
  intros after data saved. unfold ingestChanges.
  unfold andThen at 1. rewrite forEach_ingestChange.
  unfold andThen, thisSyncer, awaitSave. cbn [syncer store calls].
  fold after. fold data. fold saved. now destruct saved as [[e |] st].
Qed.

(** ** Peer selection *)

(** C10.  With no heads the loop body never runs: the answer is the empty
    list, not the error, whatever [headPeers] holds. *)
Theorem no_heads_no_peers (s : HeadSyncer) :
  heads (changes s) = [] -> calculatePeersToDownloadFrom s = Returned [].
Proof.
  intros H. unfold calculatePeersToDownloadFrom. now rewrite H.
Qed.

Lemma no_heads_no_peers_witness :
  calculatePeersToDownloadFrom
    {| changes := {| nodes := [("a", ["a"])]; missing := []; heads := [] |};
       headPeers := [("z", ["p"; "q"])] |} = Returned [].
Proof.
  apply no_heads_no_peers. reflexivity.
Defined.

Lemma tryPeer_nothing (remaining : JsSet.t) (entry : string * JsSet.t) :
  JsSet.intersection (snd entry) remaining = [] ->
  tryPeer remaining None entry = None.
Proof.
  intros H. unfold tryPeer. now rewrite H.
Qed.

Lemma peerWithMostHeads_nothing (peerHeads : JsMap.t JsSet.t) (remaining : JsSet.t) :
  (forall p hs, In (p, hs) peerHeads -> JsSet.intersection hs remaining = []) ->
  peerWithMostHeads peerHeads remaining = None.
Proof.
  unfold peerWithMostHeads.
  induction peerHeads as [| [p hs] rest IH]; intros H; simpl; [reflexivity |].
  rewrite tryPeer_nothing by (apply (H p); now left).
  apply IH. intros q hs' Hq. apply (H q). now right.
Qed.

Lemma selectLoop_nonempty (fuel : nat) (peerHeads : JsMap.t JsSet.t)
  (remaining : JsSet.t) (selected : list string) :
  remaining <> [] ->
  selectLoop (S fuel) peerHeads remaining selected =
  match peerWithMostHeads peerHeads remaining with
  | None => Thrown noPeerMessage
  | Some (peer, intersection) =>
      selectLoop fuel peerHeads (JsSet.difference remaining intersection)
        (selected ++ [peer])
  end.
Proof.
  intros H. destruct remaining as [| h rest]; [contradiction | reflexivity].
Qed.

Lemma tryPeer_choice (remaining : JsSet.t) (best : option (string * JsSet.t))
  (entry : string * JsSet.t) (p : string) (i : JsSet.t) :
  tryPeer remaining best entry = Some (p, i) ->
  best = Some (p, i)
  \/ (i = JsSet.intersection (snd entry) remaining /\ i <> []).
Proof.
  unfold tryPeer.
  destruct (bestSize best <? JsSet.size (JsSet.intersection (snd entry) remaining)) eqn:E.
  - intros [= <- <-]. right. split; [reflexivity |].
    apply Nat.ltb_lt in E. intros Hnil. rewrite Hnil in E. simpl in E. lia.
  - now left.
Qed.

(** Whatever the scan selects is a non-empty part of what remains. *)
Lemma peerWithMostHeads_some (peerHeads : JsMap.t JsSet.t) (remaining : JsSet.t)
  (p : string) (i : JsSet.t) :
  peerWithMostHeads peerHeads remaining = Some (p, i) ->
  i <> [] /\ forall h, In h i -> In h remaining.
Proof.
  unfold peerWithMostHeads.
  enough (H : forall best,
             (forall q j, best = Some (q, j) ->
                          j <> [] /\ forall h, In h j -> In h remaining) ->
             fold_left (tryPeer remaining) peerHeads best = Some (p, i) ->
             i <> [] /\ forall h, In h i -> In h remaining).
  { apply H. discriminate. }
  induction peerHeads as [| e rest IH]; intros best Hbest; simpl.
  - intros H. now apply (Hbest p).
  - apply IH. intros q j Hq. apply tryPeer_choice in Hq.
    destruct Hq as [Hq | [-> Hne]]; [now apply (Hbest q) |].
    split; [assumption |]. intros h Hh. now apply JsSet_in_intersection in Hh.
Qed.

Lemma filter_length_lt {A} (f : A -> bool) (l : list A) (x : A) :
  In x l -> f x = false -> List.length (filter f l) < List.length l.
Proof.
  induction l as [| a l IH]; intros Hin Hf; [destruct Hin |].
  simpl. pose proof (filter_length_le f l) as Hle.
  destruct Hin as [-> | Hin].
  - rewrite Hf. lia.
  - specialize (IH Hin Hf). destruct (f a); simpl; lia.
Qed.

(** Each iteration takes at least one head out of what remains. *)
Lemma iteration_shrinks peerHeads remaining selected remaining' selected' :
  iteration peerHeads (remaining, selected) (remaining', selected') ->
  JsSet.size remaining' < JsSet.size remaining.
Proof.
  inversion 1 as [? ? p i Hne Hbest]; subst.
  apply peerWithMostHeads_some in Hbest. destruct Hbest as [Hi Hsub].
  destruct i as [| h i]; [contradiction |].
  unfold JsSet.size, JsSet.difference.
  apply (filter_length_lt _ _ h).
  - apply Hsub. now left.
  - apply negb_false_iff, JsSet_has_true. now left.
Qed.

Lemma selectLoop_iteration fuel peerHeads remaining selected remaining' selected' :
  iteration peerHeads (remaining, selected) (remaining', selected') ->
  selectLoop (S fuel) peerHeads remaining selected =
  selectLoop fuel peerHeads remaining' selected'.
Proof.
  inversion 1 as [? ? p i Hne Hbest]; subst.
  rewrite selectLoop_nonempty by assumption. now rewrite Hbest.
Qed.

(** A loop with fuel for every head that remains follows the iterations. *)
Lemma selectLoop_iterations peerHeads st st' :
  iterations peerHeads st st' ->
  forall fuel, JsSet.size (fst st) <= fuel ->
  exists fuel',
    JsSet.size (fst st') <= fuel'
    /\ selectLoop fuel peerHeads (fst st) (snd st) =
       selectLoop fuel' peerHeads (fst st') (snd st').
Proof.
  induction 1 as [st | st1 st2 st3 _ IH Hstep]; intros fuel Hfuel.
  - exists fuel. now split.
  - destruct (IH fuel Hfuel) as (fuel2 & Hfuel2 & Heq).
    destruct st2 as [rem2 sel2], st3 as [rem3 sel3].
    pose proof (iteration_shrinks _ _ _ _ _ Hstep) as Hlt.
    cbn [fst snd] in *.
    destruct fuel2 as [| fuel3]; [lia |].
    exists fuel3. split; [lia |].
    rewrite Heq. now apply selectLoop_iteration.
Qed.

Lemma selectLoop_enough_fuel (peerHeads : JsMap.t JsSet.t) (fuel : nat)
  (remaining : JsSet.t) (selected : list string) :
  JsSet.size remaining <= fuel ->
  selectLoop fuel peerHeads remaining selected <> OutOfFuel.
Proof.
  revert remaining selected.
  induction fuel as [| fuel IH]; intros remaining selected Hfuel.
  - destruct remaining; [simpl; discriminate | simpl in Hfuel; lia].
  - destruct remaining as [| h rest] eqn:Hrem; [simpl; discriminate |].
    rewrite <- Hrem in *.
    assert (Hne : remaining <> []) by (rewrite Hrem; discriminate).
    rewrite selectLoop_nonempty by assumption.
    destruct (peerWithMostHeads peerHeads remaining) as [[p i] |] eqn:Hbest;
      [| discriminate].
    apply IH.
    pose proof (iteration_shrinks _ _ selected _ _
                  (iteration_select peerHeads remaining selected p i Hne Hbest)).
    lia.
Qed.

(** The bound of [calculatePeersToDownloadFrom] is never reached: the call
    returns or throws, as the [while] loop does. *)
Lemma calculate_never_out_of_fuel (s : HeadSyncer) :
  calculatePeersToDownloadFrom s <> OutOfFuel.
Proof.
  apply selectLoop_enough_fuel. apply le_n.
Qed.

(** C8.  If the loop of [calculatePeersToDownloadFrom] comes to an iteration
    where heads remain uncovered and no peer of the inverted index shares a
    head with them, the call throws its internal-consistency error instead
    of returning a list. *)
Theorem no_peer_for_remaining_throws (s : HeadSyncer) (remaining : JsSet.t)
  (selected : list string) :
  atSomeIteration s remaining selected ->
  remaining <> [] ->
  (forall p hs, In (p, hs) (invertHeadPeers (headPeers s)) ->
                JsSet.intersection hs remaining = []) ->
  calculatePeersToDownloadFrom s = Thrown noPeerMessage.
Proof.
  intros Hreach Hne Hnone. unfold calculatePeersToDownloadFrom.
  destruct (selectLoop_iterations _ _ _ Hreach (JsSet.size (heads (changes s))))
    as (fuel & Hfuel & Heq); [apply le_n |].
  cbn [fst snd] in *. rewrite Heq.
  destruct fuel as [| fuel].
  - destruct remaining; [contradiction | simpl in Hfuel; lia].
  - rewrite selectLoop_nonempty by assumption.
    now rewrite peerWithMostHeads_nothing.
Qed.

Lemma no_peer_for_remaining_throws_witness :
  calculatePeersToDownloadFrom
    {| changes := {| nodes := [("a", []); ("b", [])]; missing := []; heads := ["a"; "b"] |};
       headPeers := [("a", ["p"])] |} = Thrown noPeerMessage.
Proof.
  apply (no_peer_for_remaining_throws _ ["b"] ["p"]).
  - unfold atSomeIteration. cbn [headPeers changes heads].
    eapply iterations_more; [apply iterations_none |].
    apply (iteration_select (invertHeadPeers [("a", ["p"])]) ["a"; "b"] [] "p" ["a"]);
      [discriminate | reflexivity].
  - discriminate.
  - intros p hs [[= <- <-] | []]. reflexivity.
Defined.

(** *** The inverted index *)

Lemma entryOf_addToEntry (k x p : string) (m : JsMap.t JsSet.t) :
  entryOf p (addToEntry k x m) =
  if String.eqb k p then JsSet.add x (entryOf p m) else entryOf p m.
Proof.
  destruct (String.eqb k p) eqn:E.
  - apply String.eqb_eq in E. subst p. unfold entryOf at 1.
    now rewrite get_addToEntry_same.
  - apply String.eqb_neq in E. unfold entryOf.
    now rewrite get_addToEntry_other.
Qed.

Lemma attribute_head (h : string) (peers : JsSet.t) (ph : JsMap.t JsSet.t)
  (p x : string) :
  In x (entryOf p (fold_left (fun ph peer => addToEntry peer h ph) peers ph)) <->
  In x (entryOf p ph) \/ (x = h /\ In p peers).
Proof.
  revert ph. induction peers as [| q peers IH]; intros ph; simpl.
  - tauto.
  - rewrite IH, entryOf_addToEntry. destruct (String.eqb q p) eqn:E.
    + apply String.eqb_eq in E. subst q. rewrite JsSet_in_add. tauto.
    + apply String.eqb_neq in E. intuition congruence.
Qed.

Lemma attribute_head_nodup (h : string) (peers : JsSet.t) (ph : JsMap.t JsSet.t) :
  NoDup (JsMap.keys ph) ->
  NoDup (JsMap.keys (fold_left (fun ph peer => addToEntry peer h ph) peers ph)).
Proof.
  revert ph. induction peers as [| q peers IH]; intros ph H; simpl; [assumption |].
  apply IH. now apply addToEntry_nodup.
Qed.

Lemma invert_from (hp ph : JsMap.t JsSet.t) (p x : string) :
  In x (entryOf p
          (fold_left
             (fun peerHeads entry =>
                fold_left (fun ph peer => addToEntry peer (fst entry) ph)
                  (snd entry) peerHeads)
             hp ph)) <->
  In x (entryOf p ph) \/ exists peers, In (x, peers) hp /\ In p peers.
Proof.
  revert ph. induction hp as [| [h peers] hp IH]; intros ph; simpl.
  - split; [now left | intros [H | (peers & [] & _)]; assumption].
  - rewrite IH, attribute_head. cbn [fst snd]. split.
    + intros [[H | [-> H]] | (ps & H1 & H2)].
      * now left.
      * right. exists peers. split; [now left | assumption].
      * right. exists ps. split; [now right | assumption].
    + intros [H | (ps & [[= <- <-] | H1] & H2)].
      * now left; left.
      * left; right. now split.
      * right. now exists ps.
Qed.

Lemma invert_from_nodup (hp ph : JsMap.t JsSet.t) :
  NoDup (JsMap.keys ph) ->
  NoDup (JsMap.keys
           (fold_left
              (fun peerHeads entry =>
                 fold_left (fun ph peer => addToEntry peer (fst entry) ph)
                   (snd entry) peerHeads)
              hp ph)).
Proof.
  revert ph. induction hp as [| [h peers] hp IH]; intros ph H; simpl; [assumption |].
  apply IH. now apply attribute_head_nodup.
Qed.

(** The inverted index lists, for each peer, the keys of [headPeers] whose
    set contains the peer. *)
Lemma invertHeadPeers_entry (hp : JsMap.t JsSet.t) (p h : string) :
  In h (entryOf p (invertHeadPeers hp)) <->
  exists peers, In (h, peers) hp /\ In p peers.
Proof.
  unfold invertHeadPeers. rewrite invert_from. unfold entryOf. simpl. tauto.
Qed.

Lemma invertHeadPeers_nodup (hp : JsMap.t JsSet.t) :
  NoDup (JsMap.keys (invertHeadPeers hp)).
Proof.
  apply invert_from_nodup. constructor.
Qed.

Lemma entryOf_get (p h : string) (m : JsMap.t JsSet.t) :
  In h (entryOf p m) <-> exists hs, JsMap.get p m = Some hs /\ In h hs.
Proof.
  unfold entryOf. destruct (JsMap.get p m) as [hs |].
  - split; [intros H; now exists hs | intros (hs' & [= <-] & H); assumption].
  - split; [intros [] | intros (hs' & [=] & _)].
Qed.

(** *** The scan *)

Lemma gain_positive (remaining attributed : JsSet.t) (h : string) :
  In h attributed -> In h remaining -> 0 < gain remaining attributed.
Proof.
  intros H1 H2. unfold gain, JsSet.size.
  assert (H : In h (JsSet.intersection attributed remaining))
    by now apply JsSet_in_intersection.
  destruct (JsSet.intersection attributed remaining); [destruct H | simpl; lia].
Qed.

Lemma tryPeer_scanned (remaining : JsSet.t) (seen : JsMap.t JsSet.t)
  (best : option (string * JsSet.t)) (entry : string * JsSet.t) :
  scanned remaining seen best ->
  scanned remaining (seen ++ [entry]) (tryPeer remaining best entry).
Proof.
  destruct entry as [q hs]. unfold tryPeer. cbn [fst snd].
  fold (gain remaining hs). intros Hseen.
  destruct (bestSize best <? gain remaining hs) eqn:E.
  - apply Nat.ltb_lt in E. exists hs. split; [reflexivity |].
    exists seen, []. split; [reflexivity |]. split; [lia |].
    split; [| intros ? ? []].
    intros q' hs' Hin. destruct best as [[p i] |]; simpl in *.
    + destruct Hseen as (a & -> & before & after & -> & Hpos & Hbefore & Hafter).
      fold (gain remaining a) in E.
      apply in_app_or in Hin. destruct Hin as [Hin | [[= -> ->] | Hin]].
      * specialize (Hbefore _ _ Hin). lia.
      * assumption.
      * specialize (Hafter _ _ Hin). lia.
    + rewrite (Hseen _ _ Hin). assumption.
  - apply Nat.ltb_ge in E. destruct best as [[p i] |]; simpl in *.
    + destruct Hseen as (a & -> & before & after & -> & Hpos & Hbefore & Hafter).
      fold (gain remaining a) in E.
      exists a. split; [reflexivity |].
      exists before, (after ++ [(q, hs)]).
      split; [now rewrite <- app_assoc |]. split; [assumption |].
      split; [assumption |].
      intros q' hs' Hin. apply in_app_or in Hin.
      destruct Hin as [Hin | [[= -> ->] | []]]; [now apply (Hafter q') | assumption].
    + intros q' hs' Hin. apply in_app_or in Hin.
      destruct Hin as [Hin | [[= -> ->] | []]]; [now apply (Hseen q') | lia].
Qed.

Lemma scan_scanned (remaining : JsSet.t) (rest seen : JsMap.t JsSet.t)
  (best : option (string * JsSet.t)) :
  scanned remaining seen best ->
  scanned remaining (seen ++ rest) (fold_left (tryPeer remaining) rest best).
Proof.
  revert seen best. induction rest as [| e rest IH]; intros seen best H; simpl.
  - now rewrite app_nil_r.
  - replace (seen ++ e :: rest) with ((seen ++ [e]) ++ rest)
      by now rewrite <- app_assoc.
    apply IH. now apply tryPeer_scanned.
Qed.

(** The scan answers with the first largest peer, or with nothing when no
    peer brings anything. *)
Lemma peerWithMostHeads_scanned (peerHeads : JsMap.t JsSet.t) (remaining : JsSet.t) :
  scanned remaining peerHeads (peerWithMostHeads peerHeads remaining).
Proof.
  apply (scan_scanned remaining peerHeads [] None). intros q hs [].
Qed.

(** *** The loop *)

Lemma firstLargest_in (peerHeads : JsMap.t JsSet.t) (remaining : JsSet.t)
  (p : string) (attributed : JsSet.t) :
  NoDup (JsMap.keys peerHeads) ->
  firstLargest peerHeads remaining p attributed ->
  JsMap.get p peerHeads = Some attributed.
Proof.
  intros Hnd (before & after & Heq & _). apply JsMap_in_get; [assumption |].
  rewrite Heq. apply in_or_app. right. now left.
Qed.

(** With fuel for every head that remains, and a peer for each of them, the
    loop returns, and what it appends is a greedy selection that covers
    them. *)
Lemma selectLoop_greedy (peerHeads : JsMap.t JsSet.t) :
  NoDup (JsMap.keys peerHeads) ->
  forall fuel remaining selected,
    JsSet.size remaining <= fuel ->
    (forall h, In h remaining -> exists p, In h (entryOf p peerHeads)) ->
    exists picked,
      selectLoop fuel peerHeads remaining selected = Returned (selected ++ picked)
      /\ greedySelection peerHeads remaining picked
      /\ (forall h, In h remaining ->
                    exists p hs, In p picked
                                 /\ JsMap.get p peerHeads = Some hs /\ In h hs).
Proof.
  intros Hnd.
  assert (Hdone : forall fuel selected,
            exists picked,
              selectLoop fuel peerHeads [] selected = Returned (selected ++ picked)
              /\ greedySelection peerHeads [] picked
              /\ (forall h, In h [] ->
                            exists p hs, In p picked
                                         /\ JsMap.get p peerHeads = Some hs /\ In h hs)).
  { intros fuel selected. exists []. rewrite app_nil_r.
    split; [now destruct fuel |]. split; [reflexivity | intros h []]. }
  induction fuel as [| fuel IH]; intros remaining selected Hfuel Hpeers.
  - destruct remaining; [apply Hdone | simpl in Hfuel; lia].
  - destruct remaining as [| h0 rest] eqn:Hrem; [apply Hdone |].
    rewrite <- Hrem in *.
    assert (Hne : remaining <> []) by (rewrite Hrem; discriminate).
    rewrite selectLoop_nonempty by assumption.
    pose proof (peerWithMostHeads_scanned peerHeads remaining) as Hscan.
    destruct (peerWithMostHeads peerHeads remaining) as [[p i] |] eqn:Hbest.
    + destruct Hscan as (attributed & Hi & Hfirst).
      pose proof (iteration_shrinks _ _ selected _ _
                    (iteration_select peerHeads remaining selected p i Hne Hbest))
        as Hlt.
      destruct (IH (JsSet.difference remaining i) (selected ++ [p]))
        as (picked & Hrun & Hgreedy & Hcover).
      { lia. }
      { intros h Hh. apply Hpeers. now apply JsSet_in_difference in Hh. }
      exists (p :: picked). split; [| split].
      * rewrite Hrun. now rewrite <- app_assoc.
      * split; [assumption |]. exists attributed. split; [assumption |].
        now rewrite <- Hi.
      * intros h Hh. destruct (in_dec string_dec h i) as [Hin | Hout].
        -- exists p, attributed. split; [now left |].
           split; [now apply (firstLargest_in _ remaining) |].
           rewrite Hi in Hin. now apply JsSet_in_intersection in Hin.
        -- destruct (Hcover h) as (q & hs & Hq & Hget & Hhs).
           { now apply JsSet_in_difference. }
           exists q, hs. split; [now right | now split].
    + exfalso. assert (Hh0 : In h0 remaining) by (rewrite Hrem; now left).
      destruct (Hpeers h0 Hh0) as (p & Hp).
      apply entryOf_get in Hp. destruct Hp as (hs & Hget & Hin).
      pose proof (gain_positive remaining hs h0 Hin Hh0) as Hpos.
      rewrite (Hscan p hs (JsMap_get_in _ _ _ Hget)) in Hpos. lia.
Qed.

(** In a state where only heads have an entry in [headPeers] and every head
    is recorded under at least one peer, [calculatePeersToDownloadFrom]
    returns a list of peers; the heads attributed to those peers are,
    together, exactly the heads; and each peer of the list is, for the heads
    that the peers before it left uncovered, the first peer of the inverted
    index among those with the largest number of them. *)
Theorem selection_is_greedy_exact_cover (s : HeadSyncer) :
  onlyHeadsHavePeers s ->
  headsAttributed s ->
  exists result,
    calculatePeersToDownloadFrom s = Returned result
    /\ coversExactly (invertHeadPeers (headPeers s)) result (heads (changes s))
    /\ greedySelection (invertHeadPeers (headPeers s)) (heads (changes s)) result.
Proof.
  intros Honly Hattr. unfold calculatePeersToDownloadFrom.
  destruct (selectLoop_greedy (invertHeadPeers (headPeers s))
              (invertHeadPeers_nodup _)
              (JsSet.size (heads (changes s))) (heads (changes s)) [])
    as (picked & Hrun & Hgreedy & Hcover).
  { apply le_n. }
  { intros h Hh. destruct (Hattr h Hh) as (peers & p & H1 & H2).
    exists p. apply invertHeadPeers_entry. now exists peers. }
  exists picked. split; [exact Hrun |]. split; [| assumption].
  intros h. split; [apply Hcover |].
  intros (p & hs & _ & Hget & Hin). apply Honly.
  assert (Hentry : In h (entryOf p (invertHeadPeers (headPeers s))))
    by (apply entryOf_get; now exists hs).
  apply invertHeadPeers_entry in Hentry. destruct Hentry as (peers & Hpeers & _).
  change h with (fst (h, peers)). now apply in_map.
Qed.

Lemma selection_is_greedy_exact_cover_witness :
  let s := {| changes := {| nodes := [("r", []); ("a", ["r"]); ("b", ["r"]); ("c", ["r"])];
                            missing := [];
                            heads := ["a"; "b"; "c"] |};
              headPeers := [("a", ["p"; "q"]); ("b", ["q"]); ("c", ["p"; "q"])] |} in
  exists result,
    calculatePeersToDownloadFrom s = Returned result
    /\ coversExactly (invertHeadPeers (headPeers s)) result (heads (changes s))
    /\ greedySelection (invertHeadPeers (headPeers s)) (heads (changes s)) result.
Proof.
  intros s. apply (selection_is_greedy_exact_cover s).
  - intros h Hh. exact Hh.
  - intros h [<- | [<- | [<- | []]]].
    + exists ["p"; "q"], "p". simpl. tauto.
    + exists ["q"], "q". simpl. tauto.
    + exists ["p"; "q"], "p". simpl. tauto.
Defined.

(** The index is built from all of [headPeers] and is not filtered by
    [heads].  No call builds a coordinator with an entry for a hash that is
    not a head ([reachable_invariant]); were there one, the peers selected
    would be attributed more than the heads. *)
Lemma stale_entry_breaks_exact_cover :
  let s := {| changes := {| nodes := [("b", []); ("a", ["b"])];
                            missing := [];
                            heads := ["a"] |};
              headPeers := [("a", ["p"]); ("b", ["p"])] |} in
  headsAttributed s
  /\ calculatePeersToDownloadFrom s = Returned ["p"]
  /\ ~ (exists result,
          calculatePeersToDownloadFrom s = Returned result
          /\ coversExactly (invertHeadPeers (headPeers s)) result (heads (changes s))).
Proof.
  intros s. split; [| split].
  - intros h [<- | []]. exists ["p"], "p". simpl. tauto.
  - reflexivity.
  - intros (result & Hrun & Hcover).
    assert (Hresult : result = ["p"]) by (vm_compute in Hrun; congruence).
    subst result.
    assert (Hb : In "b" (heads (changes s))).
    { apply Hcover. exists "p", ["a"; "b"]. simpl. tauto. }
    destruct Hb as [Hb | []]. discriminate.
Qed.



(** *** Coordinators built by [ingestChanges] *)

Lemma JsSet_add_nonempty (x : string) (s : JsSet.t) : JsSet.add x s <> [].
Proof.
  unfold JsSet.add. destruct (JsSet.has x s) eqn:E.
  - intros ->. discriminate.
  - destruct s; discriminate.
Qed.

Lemma JsMap_get_delete_same {V} (k : string) (m : JsMap.t V) :
  JsMap.get k (JsMap.delete k m) = None.
Proof.
  unfold JsMap.delete. induction m as [| [k' v'] m IH]; simpl; [reflexivity |].
  destruct (String.eqb k k') eqn:E; simpl; [assumption |]. now rewrite E.
Qed.

Lemma get_deleteEntries_some {V} (rh : list string) (k : string) (v : V)
  (m : JsMap.t V) :
  JsMap.get k (fold_left (fun m h => JsMap.delete h m) rh m) = Some v ->
  JsMap.get k m = Some v.
Proof.
  revert m. induction rh as [| h rh IH]; intros m H; simpl in H; [assumption |].
  apply IH in H. destruct (string_dec h k) as [-> | Hne].
  - rewrite JsMap_get_delete_same in H. discriminate.
  - now rewrite JsMap_get_delete_other in H.
Qed.

Lemma addToEntry_recorded (k x : string) (m : JsMap.t JsSet.t) :
  (forall h peers, JsMap.get h m = Some peers -> peers <> []) ->
  forall h peers, JsMap.get h (addToEntry k x m) = Some peers -> peers <> [].
Proof.
  intros Hm h peers. destruct (string_dec k h) as [-> | Hne].
  - rewrite get_addToEntry_same. intros [= <-]. apply JsSet_add_nonempty.
  - rewrite get_addToEntry_other by assumption. apply Hm.
Qed.

Lemma ingestChange_recorded (peer : string) (s : HeadSyncer) (c : PartialChange) :
  peersRecorded s -> peersRecorded (ingestChange peer s c).
Proof.
  intros Hs. unfold ingestChange, peersRecorded.
  destruct (addChange c (changes s)) as [[rh md | |] g]; cbn [headPeers].
  - intros h peers H. apply get_deleteEntries_some in H.
    now apply (addToEntry_recorded (hash c) peer (headPeers s) Hs h).
  - destruct (JsSet.has (hash c) (heads g)); cbn [headPeers];
      [now apply addToEntry_recorded | exact Hs].
  - exact Hs.
Qed.

Lemma reachable_recorded (s : HeadSyncer) : reachable s -> peersRecorded s.
Proof.
  induction 1 as [| s peer batch _ IH]; [intros h peers [=] |].
  unfold applyBatch. revert s IH.
  induction batch as [| c batch IHb]; intros s Hs; simpl; [assumption |].
  apply IHb. now apply ingestChange_recorded.
Qed.


(** ** The head invariant *)

Lemma listedAsDep_grows (h : string) (c : PartialChange) (g g' : ChangeGraph) :
  nodes g' = JsMap.set (hash c) (deps c) (nodes g) ->
  JsMap.has (hash c) (nodes g) = false ->
  listedAsDep h g -> listedAsDep h g'.
Proof.
  intros Hnodes Hfresh (k & ds & Hget & Hin). exists k, ds. split; [| assumption].
  rewrite Hnodes, JsMap_get_set_other; [assumption |].
  intros <-. unfold JsMap.has in Hfresh. now rewrite Hget in Hfresh.
Qed.

Lemma listedAsDep_new (h : string) (c : PartialChange) (g g' : ChangeGraph) :
  nodes g' = JsMap.set (hash c) (deps c) (nodes g) ->
  In h (deps c) -> listedAsDep h g'.
Proof.
  intros Hnodes Hin. exists (hash c), (deps c). split; [| assumption].
  rewrite Hnodes. apply JsMap_get_set_same.
Qed.

Lemma addChange_accounted (c : PartialChange) (g : ChangeGraph) :
  accountedFor g -> accountedFor (snd (addChange c g)).
Proof.
  intros [Hkeys Hmissing].
  destruct (addChange_cases c g)
    as [[H1 Heq] | [(H1 & H2 & Heq) | (H1 & H2 & final & Hfinal & Heq)]];
    rewrite Heq; cbn [snd]; [now split | |].
  - set (g' := {| nodes := JsMap.set (hash c) (deps c) (nodes g);
                  missing := JsSet.delete (hash c) (missing g);
                  heads := heads g |}).
    assert (Hgrow : forall h, listedAsDep h g -> listedAsDep h g')
      by (intros h; now apply (listedAsDep_grows h c)).
    split.
    + intros k Hk. cbn [g' nodes heads] in *. apply JsMap_has_set in Hk.
      destruct Hk as [Hk | ->].
      * destruct (Hkeys k Hk); [now left | right; now apply Hgrow].
      * right. apply Hgrow, Hmissing. now apply JsSet_has_true.
    + intros m Hm. cbn [g' missing] in Hm. apply JsSet_in_delete in Hm.
      apply Hgrow, Hmissing. tauto.
  - set (g' := {| nodes := JsMap.set (hash c) (deps c) (nodes g);
                  missing := l_missing final;
                  heads := l_heads final |}).
    assert (Hgrow : forall h, listedAsDep h g -> listedAsDep h g')
      by (intros h; now apply (listedAsDep_grows h c)).
    assert (Hnew : forall h, In h (deps c) -> listedAsDep h g')
      by (intros h; now apply (listedAsDep_new h c g)).
    assert (Hheads : forall x, In x (l_heads final) <->
                               (In x (heads g) \/ x = hash c) /\ ~ In x (deps c)).
    { intros x. subst final. rewrite depsLoop_heads, in_deleteAll.
      cbn [l_heads]. now rewrite JsSet_in_add, JsSet_in_from_array. }
    split.
    + intros k Hk. cbn [g' nodes heads] in *.
      destruct (in_dec string_dec k (deps c)) as [Hdep | Hnodep];
        [right; now apply Hnew |].
      apply JsMap_has_set in Hk. destruct Hk as [Hk | ->].
      * destruct (Hkeys k Hk) as [Hhead | Hlisted];
          [left; apply Hheads; tauto | right; now apply Hgrow].
      * left. apply Hheads. tauto.
    + intros m Hm. cbn [g' missing] in Hm. subst final.
      apply depsLoop_missing in Hm. cbn [l_missing] in Hm.
      destruct Hm as [Hm | [Hm _]]; [now apply Hgrow, Hmissing |].
      apply Hnew. now apply JsSet_in_from_array.
Qed.

Lemma reachableGraph_accounted (g : ChangeGraph) :
  reachableGraph g -> accountedFor g.
Proof.
  induction 1 as [| g c _ IH]; [| now apply addChange_accounted].
  split; [intros k Hk; discriminate | intros m []].
Qed.

Lemma reachableGraph_headsKnown (g : ChangeGraph) :
  reachableGraph g -> headsKnown g.
Proof.
  induction 1 as [| g c _ IH]; [intros h [] | now apply addChange_headsKnown].
Qed.

(** The part of the head invariant that every graph built by [addChange]
    has: a head is a key of [nodes], and a key of [nodes] that no key lists
    among its deps is a head. *)
Lemma heads_complete (g : ChangeGraph) (h : string) :
  reachableGraph g ->
  (In h (heads g) -> JsMap.has h (nodes g) = true)
  /\ (JsMap.has h (nodes g) = true -> ~ listedAsDep h g -> In h (heads g)).
Proof.
  intros Hg. split; [apply (reachableGraph_headsKnown g Hg) |].
  intros Hkey Hfree.
  destruct (proj1 (reachableGraph_accounted g Hg) h Hkey); [assumption | contradiction].
Qed.

Lemma addChanges_reachable (cs : list PartialChange) (g : ChangeGraph) :
  reachableGraph g -> reachableGraph (addChanges cs g).
Proof.
  unfold addChanges. revert g.
  induction cs as [| c cs IH]; intros g Hg; simpl; [assumption |].
  apply IH. now constructor.
Qed.

(** C2 fails on the code.  C arrives, then B naming A as its dep, then A
    naming C: A was missing, so [addChange] returns before it looks at A's
    deps, and C stays in [heads] although A, a key of [nodes], lists it. *)
Lemma late_node_leaves_stale_head :
  let g := addChanges [mkChange "C" []; mkChange "B" ["A"]; mkChange "A" ["C"]]
             emptyGraph in
  reachableGraph g
  /\ g = {| nodes := [("C", []); ("B", ["A"]); ("A", ["C"])];
            missing := [];
            heads := ["C"; "B"] |}
  /\ In "C" (heads g) /\ listedAsDep "C" g
  /\ ~ headInvariant g.
Proof.
  intros g.
  assert (Hlisted : listedAsDep "C" g) by (exists "A", ["C"]; split; [reflexivity | now left]).
  split; [apply addChanges_reachable; constructor |].
  split; [reflexivity |]. split; [now left |]. split; [assumption |].
  intros Hinv. apply (Hinv "C"); [now left | assumption].
Qed.

(** ** Saving and loading again *)

Lemma JsMap_set_absent {V} (k : string) (v : V) (m : JsMap.t V) :
  ~ In k (JsMap.keys m) -> JsMap.set k v m = m ++ [(k, v)].
Proof.
  induction m as [| [k' v'] m IH]; intros H; simpl; [reflexivity |].
  destruct (String.eqb k k') eqn:E.
  - apply String.eqb_eq in E. subst. exfalso. apply H. now left.
  - rewrite IH; [reflexivity | intros Hin; apply H; now right].
Qed.

Lemma from_array_nodup (l : list string) : NoDup l -> JsSet.from_array l = l.
Proof.
  unfold JsSet.from_array, JsSet.empty.
  enough (H : forall acc, NoDup (acc ++ l) ->
                          fold_left (fun s x => JsSet.add x s) l acc = acc ++ l)
    by (intros Hl; now apply (H [])).
  induction l as [| a l IH]; intros acc Hnd; simpl; [now rewrite app_nil_r |].
  assert (Ha : JsSet.has a acc = false).
  { apply JsSet_has_false. intros Hin. apply NoDup_remove_2 in Hnd.
    apply Hnd, in_or_app. now left. }
  unfold JsSet.add at 2. rewrite Ha, IH; rewrite <- app_assoc; [reflexivity | assumption].
Qed.

Lemma from_entries_nodup {V} (m : JsMap.t V) :
  NoDup (JsMap.keys m) -> JsMap.from_entries m = m.
Proof.
  unfold JsMap.from_entries, JsMap.empty.
  enough (H : forall acc : JsMap.t V,
             NoDup (JsMap.keys (acc ++ m)) ->
             fold_left (fun a kv => JsMap.set (fst kv) (snd kv) a) m acc = acc ++ m)
    by (intros Hm; now apply (H [])).
  induction m as [| [k v] m IH]; intros acc Hnd; simpl; [now rewrite app_nil_r |].
  assert (Hk : ~ In k (JsMap.keys acc)).
  { unfold JsMap.keys in *. rewrite map_app in Hnd. simpl in Hnd.
    apply NoDup_remove_2 in Hnd. intros Hin. apply Hnd, in_or_app. now left. }
  rewrite JsMap_set_absent by assumption.
  rewrite IH; rewrite <- app_assoc; [reflexivity | assumption].
Qed.

Lemma deleteAll_nodup (xs : list string) (s : JsSet.t) :
  NoDup s -> NoDup (deleteAll xs s).
Proof.
  unfold deleteAll. revert s. induction xs as [| x xs IH]; intros s H; simpl.
  - assumption.
  - apply IH. now apply NoDup_filter.
Qed.

Lemma depsLoop_missing_nodup known ds st :
  NoDup (l_missing st) -> NoDup (l_missing (fold_left (depStep known) ds st)).
Proof.
  revert st. induction ds as [| d ds IH]; intros st H; simpl; [assumption |].
  apply IH. rewrite depStep_missing.
  destruct (JsMap.has d known); [assumption | now apply JsSet_add_nodup].
Qed.

Lemma addChange_wellFormed (c : PartialChange) (g : ChangeGraph) :
  graphWellFormed g -> graphWellFormed (snd (addChange c g)).
Proof.
  intros (Hn & Hh & Hm).
  destruct (addChange_cases c g)
    as [[H1 Heq] | [(H1 & H2 & Heq) | (H1 & H2 & final & Hfinal & Heq)]];
    rewrite Heq; unfold graphWellFormed; cbn [snd nodes heads missing].
  - now repeat split.
  - split; [now apply JsMap_set_nodup |]. split; [assumption |].
    now apply NoDup_filter.
  - split; [now apply JsMap_set_nodup |]. subst final. split.
    + rewrite depsLoop_heads. apply deleteAll_nodup. now apply JsSet_add_nodup.
    + now apply depsLoop_missing_nodup.
Qed.

Lemma changes_ingestChange (peer : string) (s : HeadSyncer) (c : PartialChange) :
  changes (ingestChange peer s c) = snd (addChange c (changes s)).
Proof.
  unfold ingestChange. destruct (addChange c (changes s)) as [[rh md | |] g];
    cbn [snd]; try reflexivity.
  now destruct (JsSet.has (hash c) (heads g)).
Qed.

Lemma reachable_wellFormed (s : HeadSyncer) :
  reachable s -> graphWellFormed (changes s).
Proof.
  induction 1 as [| s peer batch _ IH]; [repeat split; constructor |].
  unfold applyBatch. revert s IH.
  induction batch as [| c batch IHb]; intros s Hs; simpl; [assumption |].
  apply IHb. rewrite changes_ingestChange. now apply addChange_wellFormed.
Qed.

Lemma insertByIndex_perm {A} (n : N) (a : A) (l : list (N * A)) :
  Permutation (insertByIndex n a l) ((n, a) :: l).
Proof.
  induction l as [| [m b] l IH]; simpl; [reflexivity |].
  destruct (n <=? m)%N; [reflexivity |].
  rewrite IH. apply perm_swap.
Qed.

Lemma filter_split_perm {A} (f : A -> bool) (l : list A) :
  Permutation (filter f l ++ filter (fun x => negb (f x)) l) l.
Proof.
  induction l as [| a l IH]; simpl; [reflexivity |].
  destruct (f a); simpl.
  - now apply perm_skip.
  - rewrite <- Permutation_middle. now apply perm_skip.
Qed.

(** An object holds the entries it was made from, in another order. *)
Lemma objectOrder_perm {V} (l : list (string * V)) :
  Permutation (objectOrder l) l.
Proof.
  unfold objectOrder. rewrite <- (filter_split_perm isIndexKey l) at 3.
  apply Permutation_app_tail.
  induction l as [| e l IH]; simpl; [reflexivity |].
  unfold isIndexKey at 1. destruct (arrayIndex (fst e)) as [n |]; [| exact IH].
  rewrite insertByIndex_perm. simpl. now apply perm_skip.
Qed.

Lemma objectOrder_in {V} (l : list (string * V)) (e : string * V) :
  In e (objectOrder l) <-> In e l.
Proof.
  split; apply Permutation_in; [| symmetry]; apply objectOrder_perm.
Qed.

Lemma objectOrder_keys {V} (l : list (string * V)) :
  Permutation (JsMap.keys (objectOrder l)) (JsMap.keys l).
Proof.
  unfold JsMap.keys. apply Permutation_map, objectOrder_perm.
Qed.

Lemma objectOrder_nodup {V} (l : list (string * V)) :
  NoDup (JsMap.keys l) -> NoDup (JsMap.keys (objectOrder l)).
Proof.
  apply Permutation_NoDup. symmetry. apply objectOrder_keys.
Qed.

Lemma objectOrder_has {V} (l : list (string * V)) (k : string) :
  JsMap.has k (objectOrder l) = JsMap.has k l.
Proof.
  destruct (JsMap.has k l) eqn:E.
  - apply JsMap_has_keys. apply JsMap_has_keys in E.
    apply (Permutation_in k (Permutation_sym (objectOrder_keys l)) E).
  - apply JsMap_has_false_keys. apply JsMap_has_false_keys in E.
    intros H. apply E. apply (Permutation_in k (objectOrder_keys l) H).
Qed.

(** Looking a key up does not see the order. *)
Lemma objectOrder_get {V} (l : list (string * V)) (k : string) :
  NoDup (JsMap.keys l) -> JsMap.get k (objectOrder l) = JsMap.get k l.
Proof.
  intros Hnd. destruct (JsMap.get k l) as [v |] eqn:E.
  - apply JsMap_in_get; [now apply objectOrder_nodup |].
    apply objectOrder_in. now apply JsMap_get_in.
  - pose proof (objectOrder_has l k) as Hhas. unfold JsMap.has in Hhas.
    rewrite E in Hhas. now destruct (JsMap.get k (objectOrder l)).
Qed.

(** The graph comes back from storage as it was saved, the keys of [nodes]
    in the order of the object that carried them. *)
Lemma reload_restores_graph (s : HeadSyncer) :
  reachable s ->
  ld_changes (initFrom (Some (JSON_stringify (pojo s)))) =
  {| nodes := objectOrder (nodes (changes s));
     missing := missing (changes s);
     heads := heads (changes s) |}.
Proof.
  intros Hs. destruct (reachable_wellFormed s Hs) as (Hn & Hh & Hm).
  destruct s as [[n m h] hp]. cbn [changes nodes heads missing] in *.
  change (ld_changes (initFrom (Some (JSON_stringify (pojo (mkSyncer (mkGraph n m h) hp))))))
    with {| nodes := JsMap.from_entries (objectOrder n);
            missing := JsSet.from_array m;
            heads := JsSet.from_array h |}.
  rewrite from_entries_nodup by now apply objectOrder_nodup.
  now rewrite !from_array_nodup.
Qed.

Lemma from_entries_values {V} (P : V -> Prop) (l : list (string * V)) :
  (forall e, In e l -> P (snd e)) ->
  forall k v, JsMap.get k (JsMap.from_entries l) = Some v -> P v.
Proof.
  unfold JsMap.from_entries, JsMap.empty.
  enough (H : forall acc : JsMap.t V,
             (forall k v, JsMap.get k acc = Some v -> P v) ->
             (forall e, In e l -> P (snd e)) ->
             forall k v,
               JsMap.get k (fold_left (fun a kv => JsMap.set (fst kv) (snd kv) a) l acc)
               = Some v -> P v)
    by (apply H; intros k v [=]).
  induction l as [| [k0 v0] l IH]; intros acc Hacc Hl; simpl; [assumption |].
  apply IH; [| intros e He; apply Hl; now right].
  intros k v. destruct (string_dec k0 k) as [-> | Hne].
  - rewrite JsMap_get_set_same. intros [= <-]. apply (Hl (k, v0)). now left.
  - rewrite JsMap_get_set_other by assumption. apply Hacc.
Qed.

Lemma from_entries_keys {V} (l : list (string * V)) (k : string) :
  In k (JsMap.keys l) -> JsMap.has k (JsMap.from_entries l) = true.
Proof.
  unfold JsMap.from_entries, JsMap.empty.
  enough (H : forall acc : JsMap.t V,
             In k (JsMap.keys acc) \/ In k (JsMap.keys l) ->
             JsMap.has k (fold_left (fun a kv => JsMap.set (fst kv) (snd kv) a) l acc)
             = true)
    by (intros Hk; apply H; now right).
  induction l as [| [k0 v0] l IH]; intros acc Hk; simpl.
  - apply JsMap_has_keys. destruct Hk as [Hk | []]. assumption.
  - apply IH. rewrite JsMap_keys_set, JsSet_in_add. simpl in Hk. intuition.
Qed.

(** What [init] holds under [headPeers] for a saved coordinator. *)
Lemma reload_headPeers_unfold (s : HeadSyncer) :
  ld_headPeers (initFrom (Some (JSON_stringify (pojo s)))) =
  JsMap.from_entries
    (map (fun kv : string * list string => (fst kv, ArrayOfSets (map charSet (snd kv))))
       (objectOrder (map (fun kv : string * JsSet.t => (fst kv, snd kv)) (headPeers s)))).
Proof. reflexivity. Qed.

Lemma reload_headPeers_has (s : HeadSyncer) (k : string) :
  In k (JsMap.keys (headPeers s)) ->
  JsMap.has k (ld_headPeers (initFrom (Some (JSON_stringify (pojo s))))) = true.
Proof.
  intros Hk. rewrite reload_headPeers_unfold. apply from_entries_keys.
  unfold JsMap.keys. rewrite map_map. cbn [fst].
  change (In k (JsMap.keys
                  (objectOrder (map (fun kv : string * JsSet.t => (fst kv, snd kv))
                                  (headPeers s))))).
  apply (Permutation_in k (Permutation_sym (objectOrder_keys _))).
  unfold JsMap.keys. rewrite map_map. exact Hk.
Qed.

(** What [init] puts under every key of [headPeers] is an array. *)
Lemma reload_headPeers_arrays (s : HeadSyncer) (k : string) (v : PeersValue) :
  JsMap.get k (ld_headPeers (initFrom (Some (JSON_stringify (pojo s))))) = Some v ->
  exists sets, v = ArrayOfSets sets.
Proof.
  rewrite reload_headPeers_unfold.
  apply (from_entries_values (fun v => exists sets, v = ArrayOfSets sets)).
  intros e He. apply in_map_iff in He. destruct He as (e' & <- & _).
  cbn [snd]. now eexists.
Qed.

(** Whenever [headPeers] has an entry, the coordinator that [init] builds
    from the saved snapshot is not the one that was saved. *)
Lemma reload_breaks_headPeers (s : HeadSyncer) :
  headPeers s <> [] ->
  ~ sameState (asLoaded s) (initFrom (Some (JSON_stringify (pojo s)))).
Proof.
  intros Hne (_ & _ & _ & Hpeers).
  destruct (headPeers s) as [| [k v] rest] eqn:Hhp; [contradiction |].
  specialize (Hpeers k).
  assert (Hold : JsMap.get k (ld_headPeers (asLoaded s)) = Some (SetOfPeers v)).
  { unfold asLoaded. cbn [ld_headPeers]. rewrite Hhp. simpl.
    now rewrite String.eqb_refl. }
  assert (Hnew : JsMap.has k (ld_headPeers (initFrom (Some (JSON_stringify (pojo s))))) = true).
  { apply reload_headPeers_has. rewrite Hhp. now left. }
  apply JsMap_has_get in Hnew. destruct Hnew as (x & Hx).
  rewrite Hold, Hx in Hpeers.
  apply reload_headPeers_arrays in Hx. destruct Hx as (sets & ->). exact Hpeers.
Qed.

(** C1 fails on the code.  After one peer has reported one change, the
    snapshot is saved with ["p1"] under head "a"; [init] maps [new Set] over
    that array instead of applying it to the array, and comes back with an
    array holding the set of the characters of "p1".  The graph itself is
    restored. *)
Lemma reload_turns_peers_into_character_sets :
  let s := applyBatch "p1" [mkChange "a" []] emptySyncer in
  let reloaded := initFrom (Some (JSON_stringify (pojo s))) in
  reachable s
  /\ ld_changes reloaded = changes s
  /\ JsMap.get "a" (ld_headPeers (asLoaded s)) = Some (SetOfPeers ["p1"])
  /\ JsMap.get "a" (ld_headPeers reloaded) = Some (ArrayOfSets [["p"; "1"]])
  /\ ~ sameState (asLoaded s) reloaded.
Proof.
  intros s reloaded.
  split; [apply reach_ingest, reach_empty |].
  split; [reflexivity |]. split; [reflexivity |]. split; [reflexivity |].
  apply reload_breaks_headPeers. discriminate.
Qed.

(** * Further properties of the change graph *)

Lemma addChange_keeps_node (c : PartialChange) (g : ChangeGraph)
  (k : string) (ds : list string) :
  JsMap.get k (nodes g) = Some ds ->
  JsMap.get k (nodes (snd (addChange c g))) = Some ds.
Proof.
  intros Hget.
  assert (Hother : JsMap.has (hash c) (nodes g) = false ->
                   JsMap.get k (JsMap.set (hash c) (deps c) (nodes g)) = Some ds).
  { intros Hfresh. rewrite JsMap_get_set_other; [assumption |].
    intros <-. unfold JsMap.has in Hfresh. now rewrite Hget in Hfresh. }
  destruct (addChange_cases c g)
    as [[H1 Heq] | [(H1 & H2 & Heq) | (H1 & H2 & final & Hfinal & Heq)]];
    rewrite Heq; cbn [snd nodes]; auto.
Qed.

Lemma addChange_keeps_known (c : PartialChange) (g : ChangeGraph) (k : string) :
  JsMap.has k (nodes g) = true ->
  JsMap.has k (nodes (snd (addChange c g))) = true.
Proof.
  rewrite !JsMap_has_get. intros (ds & Hget). exists ds.
  now apply addChange_keeps_node.
Qed.

Lemma addChange_knows_hash (c : PartialChange) (g : ChangeGraph) :
  JsMap.has (hash c) (nodes (snd (addChange c g))) = true.
Proof.
  destruct (addChange_cases c g)
    as [[H1 Heq] | [(H1 & H2 & Heq) | (H1 & H2 & final & Hfinal & Heq)]];
    rewrite Heq; cbn [snd nodes]; [assumption | |]; apply JsMap_has_set; now right.
Qed.

Lemma addChanges_cons (c : PartialChange) (cs : list PartialChange) (g : ChangeGraph) :
  addChanges (c :: cs) g = addChanges cs (snd (addChange c g)).
Proof. reflexivity. Qed.

Lemma addChanges_keeps_known (cs : list PartialChange) (g : ChangeGraph) (k : string) :
  JsMap.has k (nodes g) = true -> JsMap.has k (nodes (addChanges cs g)) = true.
Proof.
  revert g. induction cs as [| c cs IH]; intros g H; [assumption |].
  rewrite addChanges_cons. apply IH. now apply addChange_keeps_known.
Qed.

Lemma addChanges_knows_hashes (cs : list PartialChange) (g : ChangeGraph)
  (c : PartialChange) :
  In c cs -> JsMap.has (hash c) (nodes (addChanges cs g)) = true.
Proof.
  revert g. induction cs as [| c0 cs IH]; intros g Hc; [destruct Hc |].
  rewrite addChanges_cons. destruct Hc as [-> | Hc]; [| now apply IH].
  apply addChanges_keeps_known, addChange_knows_hash.
Qed.

(** X1.  The first report of a hash decides its deps for good: whatever is
    added later, under whatever deps, a key of [nodes] keeps the deps it
    has. *)
Theorem nodes_first_write_wins (cs : list PartialChange) (g : ChangeGraph)
  (k : string) (ds : list string) :
  JsMap.get k (nodes g) = Some ds ->
  JsMap.get k (nodes (addChanges cs g)) = Some ds.
Proof.
  revert g. induction cs as [| c cs IH]; intros g H; [assumption |].
  rewrite addChanges_cons. apply IH. now apply addChange_keeps_node.
Qed.

Lemma nodes_first_write_wins_witness :
  JsMap.get "a"
    (nodes (addChanges [mkChange "b" ["a"]; mkChange "a" ["b"; "z"]]
              {| nodes := [("a", ["x"])]; missing := ["x"]; heads := ["a"] |}))
  = Some ["x"].
Proof.
  apply nodes_first_write_wins. reflexivity.
Defined.

Lemma addChange_new_heads_are_fresh (c : PartialChange) (g : ChangeGraph) (h : string) :
  In h (heads (snd (addChange c g))) ->
  In h (heads g) \/ JsMap.has h (nodes g) = false.
Proof.
  destruct (addChange_cases c g)
    as [[H1 Heq] | [(H1 & H2 & Heq) | (H1 & H2 & final & Hfinal & Heq)]];
    rewrite Heq; cbn [snd heads]; [now left | now left |].
  subst final. rewrite depsLoop_heads, in_deleteAll. cbn [l_heads].
  rewrite JsSet_in_add. intros [[H | ->] _]; [now left | now right].
Qed.

(** X2.  A hash that is known and is not a head never becomes a head again,
    whatever is added afterwards. *)
Theorem superseded_never_returns (cs : list PartialChange) (g : ChangeGraph)
  (h : string) :
  JsMap.has h (nodes g) = true -> ~ In h (heads g) ->
  ~ In h (heads (addChanges cs g)).
Proof.
  revert g. induction cs as [| c cs IH]; intros g Hknown Hout; [assumption |].
  rewrite addChanges_cons. apply IH; [now apply addChange_keeps_known |].
  intros Hin. apply addChange_new_heads_are_fresh in Hin.
  destruct Hin as [Hin | Hfresh]; [contradiction | congruence].
Qed.

Lemma superseded_never_returns_witness :
  ~ In "a"
      (heads (addChanges [mkChange "a" []; mkChange "c" ["b"]; mkChange "a" ["c"]]
                (addChanges [mkChange "a" []; mkChange "b" ["a"]] emptyGraph))).
Proof.
  apply superseded_never_returns.
  - reflexivity.
  - simpl. intros [H | []]. discriminate.
Defined.

Lemma addChange_missing_unknown (c : PartialChange) (g : ChangeGraph) :
  (forall m, In m (missing g) -> JsMap.has m (nodes g) = false) ->
  forall m, In m (missing (snd (addChange c g))) ->
            JsMap.has m (nodes (snd (addChange c g))) = false.
Proof.
  intros Hg.
  assert (Hset : forall m, JsMap.has m (nodes g) = false -> m <> hash c ->
                           JsMap.has m (JsMap.set (hash c) (deps c) (nodes g)) = false).
  { intros m Hm Hne.
    destruct (JsMap.has m (JsMap.set (hash c) (deps c) (nodes g))) eqn:E;
      [| reflexivity].
    apply JsMap_has_set in E. destruct E; congruence. }
  destruct (addChange_cases c g)
    as [[H1 Heq] | [(H1 & H2 & Heq) | (H1 & H2 & final & Hfinal & Heq)]];
    rewrite Heq; cbn [snd nodes missing]; [assumption | |]; intros m Hm.
  - apply JsSet_in_delete in Hm. destruct Hm as [Hm Hne]. now apply Hset; [apply Hg |].
  - subst final. apply depsLoop_missing in Hm. cbn [l_missing] in Hm.
    destruct Hm as [Hm | [_ Hm]]; [| assumption].
    apply Hset; [now apply Hg |]. intros ->.
    apply JsSet_has_true in Hm. congruence.
Qed.

Lemma reachableGraph_missing_unknown (g : ChangeGraph) :
  reachableGraph g -> forall m, In m (missing g) -> JsMap.has m (nodes g) = false.
Proof.
  induction 1 as [| g c _ IH]; [intros m [] | now apply addChange_missing_unknown].
Qed.

(** X3.  On every graph built by [addChange], a missing hash is not a key of
    [nodes] and is listed among the deps of some key of [nodes]. *)
Theorem missing_are_unknown_deps (g : ChangeGraph) (m : string) :
  reachableGraph g -> In m (missing g) ->
  JsMap.has m (nodes g) = false /\ listedAsDep m g.
Proof.
  intros Hg Hm. split.
  - now apply reachableGraph_missing_unknown.
  - now apply (proj2 (reachableGraph_accounted g Hg)).
Qed.

Lemma missing_are_unknown_deps_witness :
  let g := addChanges [mkChange "b" ["a"; "z"]; mkChange "a" ["y"]] emptyGraph in
  JsMap.has "z" (nodes g) = false /\ listedAsDep "z" g.
Proof.
  intros g. apply missing_are_unknown_deps.
  - apply addChanges_reachable. constructor.
  - simpl. now left.
Defined.

Lemma addChange_keeps_missing (c : PartialChange) (g : ChangeGraph) (m : string) :
  In m (missing g) -> hash c <> m -> In m (missing (snd (addChange c g))).
Proof.
  intros Hm Hne.
  destruct (addChange_cases c g)
    as [[H1 Heq] | [(H1 & H2 & Heq) | (H1 & H2 & final & Hfinal & Heq)]];
    rewrite Heq; cbn [snd missing]; [assumption | |].
  - apply JsSet_in_delete. split; [assumption | congruence].
  - subst final. apply depsLoop_missing. now left.
Qed.

(** X4.  A missing hash stays missing exactly until it is added itself: on a
    graph built by [addChange], after any further changes it is still in
    [missing] if and only if none of them carries that hash. *)
Theorem missing_until_added (g : ChangeGraph) (cs : list PartialChange) (m : string) :
  reachableGraph g -> In m (missing g) ->
  (In m (missing (addChanges cs g)) <-> forall c, In c cs -> hash c <> m).
Proof.
  intros Hg Hm. split.
  - intros Hstill c Hc <-.
    pose proof (reachableGraph_missing_unknown _ (addChanges_reachable cs g Hg) _ Hstill)
      as Hunknown.
    rewrite (addChanges_knows_hashes cs g c Hc) in Hunknown. discriminate.
  - clear Hg. revert g Hm. induction cs as [| c cs IH]; intros g Hm Hcs; [assumption |].
    rewrite addChanges_cons. apply IH.
    + apply addChange_keeps_missing; [assumption | apply Hcs; now left].
    + intros c' Hc'. apply Hcs. now right.
Qed.

Lemma missing_until_added_witness :
  let g := addChanges [mkChange "b" ["a"; "z"]] emptyGraph in
  let cs := [mkChange "c" ["b"]; mkChange "a" []] in
  In "z" (missing (addChanges cs g)) <-> forall c, In c cs -> hash c <> "z".
Proof.
  intros g cs. apply missing_until_added.
  - apply addChanges_reachable. constructor.
  - simpl. tauto.
Defined.

(** X5.  On every graph built by [addChange], every head is a key of
    [nodes], and every key of [nodes] is a head or is listed among the deps
    of some key: the half of the head invariant that the early return of the
    [was_missing] case leaves intact. *)
Theorem known_hash_is_head_or_dep (g : ChangeGraph) (h : string) :
  reachableGraph g ->
  (In h (heads g) -> JsMap.has h (nodes g) = true)
  /\ (JsMap.has h (nodes g) = true -> In h (heads g) \/ listedAsDep h g).
Proof.
  intros Hg. split.
  - apply (reachableGraph_headsKnown g Hg).
  - apply (proj1 (reachableGraph_accounted g Hg)).
Qed.

Lemma known_hash_is_head_or_dep_witness :
  let g := addChanges [mkChange "C" []; mkChange "B" ["A"]; mkChange "A" ["C"]]
             emptyGraph in
  (In "A" (heads g) -> JsMap.has "A" (nodes g) = true)
  /\ (JsMap.has "A" (nodes g) = true -> In "A" (heads g) \/ listedAsDep "A" g).
Proof.
  intros g. apply known_hash_is_head_or_dep. apply addChanges_reachable. constructor.
Defined.

(** ** Changes that arrive in causal order *)

Lemma causalInvariant_empty : causalInvariant [] emptyGraph.
Proof.
  split; [intros k [] |]. split; [intros k ds d [=] |]. split; [reflexivity |].
  intros h. split; [intros [] | intros [[=] _]].
Qed.

Lemma addChange_causal (known : list string) (g : ChangeGraph) (c : PartialChange) :
  causalInvariant known g ->
  (forall d, In d (deps c) -> In d known) ->
  causalInvariant (hash c :: known) (snd (addChange c g)).
Proof.
  intros (Hknown & Hclosed & Hmissing & Hinv) Hdeps.
  destruct (addChange_cases c g)
    as [[H1 Heq] | [(H1 & H2 & Heq) | (H1 & H2 & final & Hfinal & Heq)]];
    rewrite Heq; cbn [snd].
  - split; [| exact (conj Hclosed (conj Hmissing Hinv))].
    intros k [<- | Hk]; [assumption | now apply Hknown].
  - rewrite Hmissing in H2. discriminate.
  - assert (Hnomissing : l_missing final = []).
    { destruct (l_missing final) as [| x rest] eqn:E; [reflexivity |].
      exfalso. assert (Hx : In x (l_missing final)) by (rewrite E; now left).
      rewrite Hfinal in Hx. apply depsLoop_missing in Hx. cbn [l_missing] in Hx.
      destruct Hx as [Hx | [Hx Hun]]; [now rewrite Hmissing in Hx |].
      apply -> JsSet_in_from_array in Hx.
      assert (Hkey : JsMap.has x (JsMap.set (hash c) (deps c) (nodes g)) = true)
        by (apply JsMap_has_set; left; now apply Hknown, Hdeps).
      congruence. }
    set (g' := {| nodes := JsMap.set (hash c) (deps c) (nodes g);
                  missing := l_missing final;
                  heads := l_heads final |}).
    assert (Hnodes : forall k, JsMap.has k (nodes g) = true ->
                               JsMap.has k (nodes g') = true)
      by (intros k Hk; apply JsMap_has_set; now left).
    assert (Hheads : forall x, In x (heads g') <->
                               (In x (heads g) \/ x = hash c) /\ ~ In x (deps c)).
    { intros x. cbn [g' heads]. subst final. rewrite depsLoop_heads, in_deleteAll.
      cbn [l_heads]. now rewrite JsSet_in_add, JsSet_in_from_array. }
    split; [| split; [| split]].
    + intros k [<- | Hk]; [apply JsMap_has_set; now right | now apply Hnodes, Hknown].
    + intros k ds d Hget Hd. apply Hnodes. cbn [g' nodes] in Hget.
      destruct (string_dec (hash c) k) as [<- | Hne].
      * rewrite JsMap_get_set_same in Hget. injection Hget as <-.
        now apply Hknown, Hdeps.
      * rewrite JsMap_get_set_other in Hget by assumption.
        now apply (Hclosed k ds).
    + exact Hnomissing.
    + intros x. rewrite Hheads. split.
      * intros [Hwas Hnodep]. split.
        -- destruct Hwas as [Hwas | ->]; [| apply JsMap_has_set; now right].
           apply Hnodes. now apply Hinv.
        -- intros (k & ds & Hget & Hin). cbn [g' nodes] in Hget.
           destruct (string_dec (hash c) k) as [<- | Hne].
           ++ rewrite JsMap_get_set_same in Hget. injection Hget as <-. contradiction.
           ++ rewrite JsMap_get_set_other in Hget by assumption.
              destruct Hwas as [Hwas | ->].
              ** apply Hinv in Hwas. apply (proj2 Hwas). now exists k, ds.
              ** rewrite (Hclosed k ds (hash c) Hget Hin) in H1. discriminate.
      * intros [Hkey Hfree].
        assert (Hnodep : ~ In x (deps c)).
        { intros Hin. apply Hfree. now apply (listedAsDep_new x c g). }
        split; [| assumption]. apply JsMap_has_set in Hkey.
        destruct Hkey as [Hkey | ->]; [left | now right].
        apply Hinv. split; [assumption |]. intros Hlisted. apply Hfree.
        now apply (listedAsDep_grows x c g).
Qed.

Lemma addChanges_causal (cs : list PartialChange) (known : list string)
  (g : ChangeGraph) :
  causalInvariant known g -> inCausalOrder known cs ->
  exists known', causalInvariant known' (addChanges cs g).
Proof.
  revert known g. induction cs as [| c cs IH]; intros known g Hg Hcs.
  - now exists known.
  - destruct Hcs as [Hdeps Hrest]. rewrite addChanges_cons.
    apply (IH (hash c :: known)); [now apply addChange_causal | assumption].
Qed.

(** X6.  When changes are added in causal order, each after all the changes
    it depends on, the graph is what the field comments say: nothing is ever
    missing, and the heads are exactly the keys of [nodes] that no key lists
    among its deps. *)
Theorem causal_order_keeps_head_invariant (cs : list PartialChange) :
  inCausalOrder [] cs ->
  missing (addChanges cs emptyGraph) = []
  /\ headInvariant (addChanges cs emptyGraph).
Proof.
  intros Hcs.
  destruct (addChanges_causal cs [] emptyGraph causalInvariant_empty Hcs)
    as (known & _ & _ & Hmissing & Hinv).
  now split.
Qed.

Lemma causal_order_keeps_head_invariant_witness :
  let cs := [mkChange "r" []; mkChange "a" ["r"]; mkChange "b" ["r"];
             mkChange "r" []; mkChange "m" ["a"; "b"; "a"]] in
  missing (addChanges cs emptyGraph) = []
  /\ headInvariant (addChanges cs emptyGraph).
Proof.
  intros cs. apply causal_order_keeps_head_invariant.
  simpl. intuition (subst; auto).
Defined.

(** X7.  On a graph built by [addChange], the two lists of a [new_head]
    answer never share a hash: what is taken out of [heads] is known, what
    is put into [missing] is not. *)
Theorem removed_heads_are_not_missing_deps (g g' : ChangeGraph) (c : PartialChange)
  (removedHeads missingDeps : list string) :
  reachableGraph g ->
  addChange c g = (new_head removedHeads missingDeps, g') ->
  forall x, In x removedHeads -> ~ In x missingDeps.
Proof.
  intros Hg Hadd x Hrh Hmd.
  pose proof (reachableGraph_headsKnown g Hg) as Hknown.
  destruct (addChange_cases c g)
    as [[H1 Heq] | [(H1 & H2 & Heq) | (H1 & H2 & final & Hfinal & Heq)]];
    rewrite Heq in Hadd; try discriminate.
  injection Hadd as <- <- <-. subst final.
  rewrite depsLoop_removedHeads in Hrh by apply JsSet_from_array_nodup.
  rewrite depsLoop_missingDeps in Hmd. cbn [l_removedHeads l_missingDeps l_heads] in *.
  apply filter_In in Hrh. destruct Hrh as [_ Hrh].
  apply filter_In in Hmd. destruct Hmd as [_ Hmd].
  apply JsSet_has_true, JsSet_in_add in Hrh. apply negb_true_iff in Hmd.
  assert (Hkey : JsMap.has x (JsMap.set (hash c) (deps c) (nodes g)) = true).
  { apply JsMap_has_set. destruct Hrh as [Hrh | ->]; [left; now apply Hknown | now right]. }
  congruence.
Qed.

Lemma removed_heads_are_not_missing_deps_witness : ~ In "a" ["z"].
Proof.
  apply (removed_heads_are_not_missing_deps
           (addChanges [mkChange "r" []; mkChange "a" ["r"]; mkChange "b" ["r"]] emptyGraph)
           {| nodes := [("r", []); ("a", ["r"]); ("b", ["r"]); ("m", ["a"; "z"; "b"; "r"])];
              missing := ["z"];
              heads := ["m"] |}
           (mkChange "m" ["a"; "z"; "b"; "r"]) ["a"; "b"] ["z"]).
  - apply addChanges_reachable. constructor.
  - reflexivity.
  - now left.
Defined.

(** * Further properties of the coordinator *)

Lemma getPeerHeads_in (s : HeadSyncer) (id p : string) :
  In p (getPeerHeads s id) <->
  exists peers, JsMap.get id (headPeers s) = Some peers /\ In p peers.
Proof.
  unfold getPeerHeads. destruct (JsMap.get id (headPeers s)) as [peers |].
  - split; [intros H; now exists peers | intros (ps & [= <-] & H); assumption].
  - split; [intros [] | intros (ps & [=] & _)].
Qed.

(** X8.  After a batch from a peer, every hash of the batch is known, and the
    peer is recorded under every hash of the batch that is a head. *)
Theorem batch_records_its_peer (s : HeadSyncer) (peer : string)
  (batch : list PartialChange) (c : PartialChange) :
  reachable s -> In c batch ->
  let s' := applyBatch peer batch s in
  JsMap.has (hash c) (nodes (changes s')) = true
  /\ (In (hash c) (getLatestHeads s') -> In peer (getPeerHeads s' (hash c))).
Proof.
  intros Hs Hc s'.
  destruct (applyBatch_settles peer batch s (reachable_invariant s Hs) c Hc)
    as [Hknown Hpeer].
  split; [assumption |]. intros Hhead. now apply getPeerHeads_in, Hpeer.
Qed.

Lemma batch_records_its_peer_witness :
  let s := applyBatch "p1" [mkChange "r" []; mkChange "a" ["r"]] emptySyncer in
  let s' := applyBatch "p2" [mkChange "a" ["r"]; mkChange "b" ["r"]] s in
  JsMap.has "a" (nodes (changes s')) = true
  /\ (In "a" (getLatestHeads s') -> In "p2" (getPeerHeads s' "a")).
Proof.
  intros s.
  apply (batch_records_its_peer s "p2" [mkChange "a" ["r"]; mkChange "b" ["r"]]
           (mkChange "a" ["r"])).
  - apply reach_ingest, reach_empty.
  - now left.
Defined.

(** X9.  A peer recorded under a hash stays recorded under it for as long as
    the hash is a head, whoever reports whatever afterwards. *)
Theorem recorded_peer_stays (s : HeadSyncer) (h p peer : string)
  (batch : list PartialChange) :
  reachable s ->
  In p (getPeerHeads s h) ->
  In h (getLatestHeads (applyBatch peer batch s)) ->
  In p (getPeerHeads (applyBatch peer batch s) h).
Proof.
  intros Hs Hp Hhead. apply getPeerHeads_in in Hp.
  destruct Hp as (peers & Hget & Hin).
  destruct (reachable_invariant s Hs) as [Hknown Hkeys].
  assert (Hsettled : settled p h s).
  { split; [| intros _; now exists peers].
    apply Hknown. rewrite <- Hkeys. apply JsMap_has_keys, JsMap_has_get.
    now exists peers. }
  apply (applyBatch_keeps_settled p peer h batch) in Hsettled.
  apply getPeerHeads_in. now apply Hsettled.
Qed.

Lemma recorded_peer_stays_witness :
  let s := applyBatch "p1" [mkChange "r" []; mkChange "a" ["r"]] emptySyncer in
  In "p1" (getPeerHeads (applyBatch "p2" [mkChange "a" []; mkChange "b" ["r"]] s) "a").
Proof.
  intros s. apply recorded_peer_stays.
  - apply reach_ingest, reach_empty.
  - simpl. now left.
  - simpl. now left.
Defined.

(** X10.  On a coordinator built by [ingestChanges], [getPeerHeads] looks its
    argument up among the heads: it answers a non-empty list exactly for the
    hashes of [getLatestHeads]. *)
Theorem getPeerHeads_answers_for_heads (s : HeadSyncer) (id : string) :
  reachable s ->
  (getPeerHeads s id <> [] <-> In id (getLatestHeads s)).
Proof.
  intros Hs. destruct (reachable_invariant s Hs) as [_ Hkeys].
  unfold getLatestHeads. rewrite <- Hkeys, <- JsMap_has_keys, JsMap_has_get.
  unfold getPeerHeads. split.
  - destruct (JsMap.get id (headPeers s)) as [peers |]; [now exists peers | congruence].
  - intros (peers & Hget). rewrite Hget. now apply (reachable_recorded s Hs id).
Qed.

Lemma getPeerHeads_answers_for_heads_witness :
  let s := applyBatch "p1" [mkChange "r" []; mkChange "a" ["r"]] emptySyncer in
  (getPeerHeads s "p1" <> [] <-> In "p1" (getLatestHeads s))
  /\ (getPeerHeads s "a" <> [] <-> In "a" (getLatestHeads s)).
Proof.
  intros s. split; apply getPeerHeads_answers_for_heads; apply reach_ingest, reach_empty.
Defined.

(** * Further properties of the peer selection *)

(** What every iteration keeps, the returned list has. *)
Lemma selectLoop_invariant (peerHeads : JsMap.t JsSet.t)
  (Inv : JsSet.t -> list string -> Prop) :
  (forall remaining selected p i,
     remaining <> [] ->
     peerWithMostHeads peerHeads remaining = Some (p, i) ->
     Inv remaining selected ->
     Inv (JsSet.difference remaining i) (selected ++ [p])) ->
  forall fuel remaining selected result,
    Inv remaining selected ->
    selectLoop fuel peerHeads remaining selected = Returned result ->
    Inv [] result.
Proof.
  intros Hstep. induction fuel as [| fuel IH]; intros remaining selected result Hinv.
  - destruct remaining; simpl; [intros [= <-]; assumption | discriminate].
  - destruct remaining as [| h rest] eqn:Hrem; [simpl; intros [= <-]; assumption |].
    rewrite <- Hrem in *.
    assert (Hne : remaining <> []) by (rewrite Hrem; discriminate).
    rewrite selectLoop_nonempty by assumption.
    destruct (peerWithMostHeads peerHeads remaining) as [[p i] |] eqn:Hbest;
      [| discriminate].
    apply IH. now apply Hstep.
Qed.

(** What the scan selects is an entry of the index and what it shares with
    the heads that remain, which is something. *)
Lemma selected_entry (peerHeads : JsMap.t JsSet.t) (remaining : JsSet.t)
  (p : string) (i : JsSet.t) :
  NoDup (JsMap.keys peerHeads) ->
  peerWithMostHeads peerHeads remaining = Some (p, i) ->
  exists hs, JsMap.get p peerHeads = Some hs
             /\ i = JsSet.intersection hs remaining /\ i <> [].
Proof.
  intros Hnd Hbest.
  pose proof (peerWithMostHeads_scanned peerHeads remaining) as Hscan.
  rewrite Hbest in Hscan. destruct Hscan as (hs & Hi & Hfirst).
  exists hs. split; [now apply (firstLargest_in _ remaining) |].
  split; [assumption |]. now apply (peerWithMostHeads_some _ _ _ _ Hbest).
Qed.

Lemma entryOf_some (p : string) (m : JsMap.t JsSet.t) (hs : JsSet.t) :
  JsMap.get p m = Some hs -> entryOf p m = hs.
Proof.
  intros H. unfold entryOf. now rewrite H.
Qed.

(** X12.  The list that [calculatePeersToDownloadFrom] returns names no peer
    twice and is no longer than the list of heads. *)
Theorem selection_is_short (s : HeadSyncer) (result : list string) :
  calculatePeersToDownloadFrom s = Returned result ->
  NoDup result /\ List.length result <= List.length (getLatestHeads s).
Proof.
  unfold calculatePeersToDownloadFrom, getLatestHeads.
  set (peerHeads := invertHeadPeers (headPeers s)).
  assert (Hnd : NoDup (JsMap.keys peerHeads)) by apply invertHeadPeers_nodup.
  intros Hrun. split.
  - apply (selectLoop_invariant peerHeads
             (fun remaining selected =>
                NoDup selected
                /\ forall p, In p selected ->
                     forall h, In h (entryOf p peerHeads) -> ~ In h remaining))
      in Hrun; [apply Hrun | | split; [constructor | intros p []]].
    intros remaining selected p i _ Hbest [Hsel Hspent].
    destruct (selected_entry _ _ _ _ Hnd Hbest) as (hs & Hget & Hi & Hne).
    assert (Hnew : ~ In p selected).
    { intros Hp. destruct i as [| h i]; [contradiction |].
      assert (Hh : In h (JsSet.intersection hs remaining)) by (rewrite <- Hi; now left).
      apply JsSet_in_intersection in Hh. destruct Hh as [Hh1 Hh2].
      apply (Hspent p Hp h); [now rewrite (entryOf_some _ _ _ Hget) | assumption]. }
    split.
    + apply JsSet_has_false in Hnew. pose proof (JsSet_add_nodup p selected Hsel) as H.
      unfold JsSet.add in H. now rewrite Hnew in H.
    + intros q Hq h Hh Hrem. apply JsSet_in_difference in Hrem.
      destruct Hrem as [Hrem Hout]. apply in_app_or in Hq.
      destruct Hq as [Hq | [<- | []]]; [now apply (Hspent q Hq h) |].
      apply Hout. rewrite Hi. apply JsSet_in_intersection.
      now rewrite (entryOf_some _ _ _ Hget) in Hh.
  - apply (selectLoop_invariant peerHeads
             (fun remaining selected =>
                List.length selected + List.length remaining
                <= List.length (heads (changes s))))
      in Hrun; [simpl in Hrun; lia | | simpl; lia].
    intros remaining selected p i Hne Hbest Hlen.
    pose proof (iteration_shrinks _ _ selected _ _
                  (iteration_select peerHeads remaining selected p i Hne Hbest)) as Hlt.
    unfold JsSet.size in Hlt. rewrite length_app. simpl. lia.
Qed.

Lemma selection_is_short_witness :
  NoDup ["p"; "q"] /\ List.length ["p"; "q"] <= 3.
Proof.
  apply (selection_is_short
           {| changes := {| nodes := []; missing := []; heads := ["a"; "b"; "c"] |};
              headPeers := [("a", ["p"; "q"]); ("b", ["q"]); ("c", ["p"])] |}).
  reflexivity.
Defined.

(** X13.  Every peer that [calculatePeersToDownloadFrom] returns is recorded
    in [headPeers] under some current head. *)
Theorem selected_peers_hold_a_head (s : HeadSyncer) (result : list string) (p : string) :
  calculatePeersToDownloadFrom s = Returned result ->
  In p result ->
  exists h peers,
    In h (getLatestHeads s) /\ In (h, peers) (headPeers s) /\ In p peers.
Proof.
  unfold calculatePeersToDownloadFrom, getLatestHeads.
  set (peerHeads := invertHeadPeers (headPeers s)).
  assert (Hnd : NoDup (JsMap.keys peerHeads)) by apply invertHeadPeers_nodup.
  intros Hrun Hp.
  apply (selectLoop_invariant peerHeads
           (fun remaining selected =>
              (forall h, In h remaining -> In h (heads (changes s)))
              /\ forall q, In q selected ->
                   exists h, In h (heads (changes s)) /\ In h (entryOf q peerHeads)))
    in Hrun.
  - destruct Hrun as [_ Hsel]. destruct (Hsel p Hp) as (h & Hh & Hentry).
    apply invertHeadPeers_entry in Hentry. destruct Hentry as (peers & H1 & H2).
    now exists h, peers.
  - intros remaining selected q i _ Hbest [Hsub Hsel].
    destruct (selected_entry _ _ _ _ Hnd Hbest) as (hs & Hget & Hi & Hne).
    split.
    + intros h Hh. apply Hsub. now apply JsSet_in_difference in Hh.
    + intros q' Hq'. apply in_app_or in Hq'.
      destruct Hq' as [Hq' | [<- | []]]; [now apply Hsel |].
      destruct i as [| h i]; [contradiction |].
      assert (Hh : In h (JsSet.intersection hs remaining)) by (rewrite <- Hi; now left).
      apply JsSet_in_intersection in Hh. destruct Hh as [Hh1 Hh2].
      exists h. split; [now apply Hsub |]. now rewrite (entryOf_some _ _ _ Hget).
  - split; [trivial | intros q []].
Qed.

Lemma selected_peers_hold_a_head_witness :
  exists h peers,
    In h ["a"] /\ In (h, peers) [("a", ["p"]); ("b", ["q"; "p"])] /\ In "p" peers.
Proof.
  apply (selected_peers_hold_a_head
           {| changes := {| nodes := []; missing := []; heads := ["a"] |};
              headPeers := [("a", ["p"]); ("b", ["q"; "p"])] |} ["p"] "p").
  - reflexivity.
  - now left.
Defined.

Lemma selectLoop_throws_one_message (peerHeads : JsMap.t JsSet.t) (fuel : nat)
  (remaining : JsSet.t) (selected : list string) (message : string) :
  selectLoop fuel peerHeads remaining selected = Thrown message ->
  message = noPeerMessage.
Proof.
  revert remaining selected.
  induction fuel as [| fuel IH]; intros remaining selected.
  - destruct remaining; simpl; discriminate.
  - destruct remaining as [| h rest] eqn:Hrem; [simpl; discriminate |].
    rewrite <- Hrem.
    rewrite selectLoop_nonempty by (rewrite Hrem; discriminate).
    destruct (peerWithMostHeads peerHeads remaining) as [[p i] |];
      [apply IH | now intros [= <-]].
Qed.

(** X14.  [calculatePeersToDownloadFrom] throws exactly for the heads that
    nobody is recorded under: it returns a list when every head has a peer
    in [headPeers], and throws its error when some head has none, whatever
    else [headPeers] holds. *)
Theorem selection_throws_for_head_without_peer (s : HeadSyncer) :
  (headsAttributed s -> exists result, calculatePeersToDownloadFrom s = Returned result)
  /\ ((exists h, In h (getLatestHeads s)
                 /\ forall peers p, In (h, peers) (headPeers s) -> ~ In p peers) ->
      calculatePeersToDownloadFrom s = Thrown noPeerMessage).
Proof.
  unfold getLatestHeads. split.
  - intros Hattr. unfold calculatePeersToDownloadFrom.
    destruct (selectLoop_greedy (invertHeadPeers (headPeers s))
                (invertHeadPeers_nodup _)
                (JsSet.size (heads (changes s))) (heads (changes s)) [])
      as (picked & Hrun & _).
    + apply le_n.
    + intros h Hh. destruct (Hattr h Hh) as (peers & p & H1 & H2).
      exists p. apply invertHeadPeers_entry. now exists peers.
    + now exists picked.
  - intros (h & Hh & Hnone).
    pose proof (calculate_never_out_of_fuel s) as Hfuel.
    unfold calculatePeersToDownloadFrom in *.
    set (peerHeads := invertHeadPeers (headPeers s)) in *.
    assert (Hnd : NoDup (JsMap.keys peerHeads)) by apply invertHeadPeers_nodup.
    destruct (selectLoop (JsSet.size (heads (changes s))) peerHeads
                (heads (changes s)) []) as [result | message |] eqn:Hrun.
    + exfalso.
      apply (selectLoop_invariant peerHeads (fun remaining _ => In h remaining))
        in Hrun; [destruct Hrun | | assumption].
      intros remaining selected p i _ Hbest Hrem.
      destruct (selected_entry _ _ _ _ Hnd Hbest) as (hs & Hget & Hi & _).
      apply JsSet_in_difference. split; [assumption |].
      rewrite Hi, JsSet_in_intersection. intros [Hin _].
      assert (Hentry : In h (entryOf p peerHeads))
        by now rewrite (entryOf_some _ _ _ Hget).
      apply invertHeadPeers_entry in Hentry. destruct Hentry as (peers & H1 & H2).
      now apply (Hnone peers p).
    + f_equal. now apply selectLoop_throws_one_message in Hrun.
    + contradiction.
Qed.

Lemma selection_throws_for_head_without_peer_witness :
  (exists result,
     calculatePeersToDownloadFrom
       {| changes := {| nodes := []; missing := []; heads := ["a"] |};
          headPeers := [("a", ["p"]); ("b", [])] |} = Returned result)
  /\ calculatePeersToDownloadFrom
       {| changes := {| nodes := []; missing := []; heads := ["a"; "b"] |};
          headPeers := [("a", ["p"]); ("b", [])] |} = Thrown noPeerMessage.
Proof.
  split.
  - apply (proj1 (selection_throws_for_head_without_peer _)).
    intros h [<- | []]. exists ["p"], "p". simpl. tauto.
  - apply (proj2 (selection_throws_for_head_without_peer _)).
    exists "b". split; [simpl; tauto |].
    intros peers p [[=] | [[= <-] | []]]. intros [].
Defined.

Lemma addToEntry_distinct (k x : string) (m : JsMap.t JsSet.t) :
  entriesDistinct m -> entriesDistinct (addToEntry k x m).
Proof.
  intros Hm p hs. destruct (string_dec k p) as [<- | Hne].
  - rewrite get_addToEntry_same. intros [= <-]. apply JsSet_add_nodup.
    unfold entryOf. destruct (JsMap.get k m) as [e |] eqn:E;
      [now apply (Hm k) | constructor].
  - rewrite get_addToEntry_other by assumption. apply Hm.
Qed.

Lemma invertHeadPeers_distinct (hp : JsMap.t JsSet.t) :
  entriesDistinct (invertHeadPeers hp).
Proof.
  unfold invertHeadPeers.
  enough (H : forall ph, entriesDistinct ph ->
             entriesDistinct
               (fold_left
                  (fun peerHeads entry =>
                     fold_left (fun ph peer => addToEntry peer (fst entry) ph)
                       (snd entry) peerHeads)
                  hp ph))
    by (apply H; intros p hs [=]).
  induction hp as [| [h peers] hp IH]; intros ph Hph; simpl; [assumption |].
  apply IH. clear IH. revert ph Hph.
  induction peers as [| q peers IHp]; intros ph Hph; simpl; [assumption |].
  apply IHp. now apply addToEntry_distinct.
Qed.

Lemma filter_nothing {A} (f : A -> bool) (l : list A) :
  (forall x, In x l -> f x = false) -> filter f l = [].
Proof.
  induction l as [| a l IH]; intros H; simpl; [reflexivity |].
  rewrite (H a) by now left. apply IH. intros x Hx. apply H. now right.
Qed.

(** X15.  When one peer is recorded under every head, the selection is a
    single peer, and that peer is recorded under every head. *)
Theorem one_peer_with_every_head (s : HeadSyncer) (p : string) :
  reachable s ->
  getLatestHeads s <> [] ->
  (forall h, In h (getLatestHeads s) -> In p (getPeerHeads s h)) ->
  exists q,
    calculatePeersToDownloadFrom s = Returned [q]
    /\ forall h, In h (getLatestHeads s) -> In q (getPeerHeads s h).
Proof.
  unfold getLatestHeads. intros Hs Hne Hp.
  destruct (reachable_invariant s Hs) as [_ Hkeys].
  destruct (reachable_wellFormed s Hs) as (_ & Hheads & _).
  unfold calculatePeersToDownloadFrom.
  set (peerHeads := invertHeadPeers (headPeers s)).
  set (hs := heads (changes s)) in *.
  assert (Hnd : NoDup (JsMap.keys peerHeads)) by apply invertHeadPeers_nodup.
  assert (Hentry : forall q h, In h (entryOf q peerHeads) <-> In q (getPeerHeads s h)).
  { intros q h. unfold peerHeads. rewrite invertHeadPeers_entry, getPeerHeads_in.
    split; intros (peers & H1 & H2); exists peers; (split; [| assumption]).
    - apply JsMap_in_get; [now rewrite Hkeys | assumption].
    - now apply JsMap_get_in. }
  assert (Hall : incl hs (JsSet.intersection (entryOf p peerHeads) hs)).
  { intros h Hh. apply JsSet_in_intersection. split; [| assumption].
    now apply Hentry, Hp. }
  pose proof (NoDup_incl_length Hheads Hall) as Hgain.
  destruct hs as [| h0 rest] eqn:Hhs; [contradiction |]. rewrite <- Hhs in *.
  assert (Hsize : JsSet.size hs = S (List.length rest)) by now rewrite Hhs.
  rewrite Hsize, selectLoop_nonempty by assumption.
  assert (Hmine : exists mine, JsMap.get p peerHeads = Some mine).
  { assert (H0 : In h0 (entryOf p peerHeads)) by (apply Hentry, Hp; rewrite Hhs; now left).
    apply entryOf_get in H0. destruct H0 as (mine & H0 & _). now exists mine. }
  destruct Hmine as (mine & Hmine).
  rewrite (entryOf_some _ _ _ Hmine) in Hgain, Hall.
  pose proof (peerWithMostHeads_scanned peerHeads hs) as Hscan.
  destruct (peerWithMostHeads peerHeads hs) as [[q i] |].
  - destruct Hscan as (a & Hi & Hfirst).
    pose proof (firstLargest_in _ _ _ _ Hnd Hfirst) as Hq.
    destruct Hfirst as (before & after & Hsplit & _ & Hbefore & Hafter).
    assert (Hle : gain hs mine <= gain hs a).
    { pose proof (JsMap_get_in _ _ _ Hmine) as Hin. rewrite Hsplit in Hin.
      apply in_app_or in Hin. destruct Hin as [Hin | [[= _ <-] | Hin]].
      - specialize (Hbefore _ _ Hin). lia.
      - lia.
      - now apply (Hafter p). }
    unfold gain, JsSet.size in Hle. rewrite <- Hi in Hle.
    assert (Hcovered : incl hs i).
    { apply NoDup_length_incl.
      - rewrite Hi. apply NoDup_filter.
        exact (invertHeadPeers_distinct (headPeers s) q a Hq).
      - lia.
      - intros h Hh. rewrite Hi in Hh. now apply JsSet_in_intersection in Hh. }
    assert (Hdone : JsSet.difference hs i = []).
    { apply filter_nothing. intros h Hh. apply negb_false_iff, JsSet_has_true.
      now apply Hcovered. }
    exists q. rewrite Hdone. split; [now destruct (List.length rest) |].
    intros h Hh. apply Hentry. rewrite (entryOf_some _ _ _ Hq).
    apply Hcovered in Hh. rewrite Hi in Hh. now apply JsSet_in_intersection in Hh.
  - exfalso. pose proof (Hscan p mine (JsMap_get_in _ _ _ Hmine)) as Hzero.
    unfold gain, JsSet.size in Hzero, Hsize. lia.
Qed.

Lemma one_peer_with_every_head_witness :
  let s := applyBatch "p1" [mkChange "r" []; mkChange "a" ["r"]; mkChange "b" ["r"]]
             (applyBatch "p2" [mkChange "r" []; mkChange "b" ["r"]] emptySyncer) in
  exists q,
    calculatePeersToDownloadFrom s = Returned [q]
    /\ forall h, In h (getLatestHeads s) -> In q (getPeerHeads s h).
Proof.
  intros s. apply (one_peer_with_every_head s "p1").
  - apply reach_ingest, reach_ingest, reach_empty.
  - discriminate.
  - intros h [<- | [<- | []]]; simpl; tauto.
Defined.


(** * Further properties of saving and loading *)

(** X16.  What [ingestChanges] saves gives the graph back when [init] loads
    it: the same deps under every key of [nodes], the same heads, the same
    missing hashes. *)
Theorem reload_keeps_graph (s : HeadSyncer) :
  reachable s ->
  let loaded := ld_changes (initFrom (Some (JSON_stringify (pojo s)))) in
  (forall k, JsMap.get k (nodes loaded) = JsMap.get k (nodes (changes s)))
  /\ sameElements (heads loaded) (heads (changes s))
  /\ sameElements (missing loaded) (missing (changes s)).
Proof.
  intros Hs loaded. unfold loaded. rewrite (reload_restores_graph s Hs).
  cbn [nodes heads missing]. split; [| split; intros x; reflexivity].
  intros k. apply objectOrder_get. now apply (reachable_wellFormed s Hs).
Qed.

Lemma reload_keeps_graph_witness :
  let s := applyBatch "p1" [mkChange "b" ["a"; "z"]; mkChange "a" []] emptySyncer in
  let loaded := ld_changes (initFrom (Some (JSON_stringify (pojo s)))) in
  (forall k, JsMap.get k (nodes loaded) = JsMap.get k (nodes (changes s)))
  /\ sameElements (heads loaded) (heads (changes s))
  /\ sameElements (missing loaded) (missing (changes s)).
Proof.
  intros s. apply reload_keeps_graph. apply reach_ingest, reach_empty.
Defined.

Lemma get_asLoaded (s : HeadSyncer) (k : string) :
  JsMap.get k (ld_headPeers (asLoaded s)) =
  option_map SetOfPeers (JsMap.get k (headPeers s)).
Proof.
  unfold asLoaded. cbn [ld_headPeers].
  induction (headPeers s) as [| [k' v] m IH]; simpl; [reflexivity |].
  now destruct (String.eqb k k').
Qed.

Lemma set_asLoaded (k : string) (v : JsSet.t) (m : JsMap.t JsSet.t) :
  JsMap.set k (SetOfPeers v) (map (fun kv => (fst kv, SetOfPeers (snd kv))) m) =
  map (fun kv => (fst kv, SetOfPeers (snd kv))) (JsMap.set k v m).
Proof.
  induction m as [| [k' v'] m IH]; simpl; [reflexivity |].
  destruct (String.eqb k k'); simpl; [reflexivity | now rewrite IH].
Qed.

Lemma delete_asLoaded (rh : list string) (m : JsMap.t JsSet.t) :
  fold_left (fun m h => JsMap.delete h m) rh
    (map (fun kv => (fst kv, SetOfPeers (snd kv))) m) =
  map (fun kv => (fst kv, SetOfPeers (snd kv)))
    (fold_left (fun m h => JsMap.delete h m) rh m).
Proof.
  revert m. induction rh as [| h rh IH]; intros m; simpl; [reflexivity |].
  rewrite <- IH. f_equal. unfold JsMap.delete.
  induction m as [| [k v] m IHm]; simpl; [reflexivity |].
  destruct (String.eqb h k); simpl; now rewrite IHm.
Qed.

Lemma addPeerLoaded_asLoaded (k peer : string) (s : HeadSyncer) :
  addPeerLoaded k peer (ld_headPeers (asLoaded s)) =
  Completes (map (fun kv => (fst kv, SetOfPeers (snd kv)))
               (addToEntry k peer (headPeers s))).
Proof.
  unfold addPeerLoaded, getOrDefault. rewrite get_asLoaded, addToEntry_unfold.
  unfold asLoaded. cbn [ld_headPeers].
  destruct (JsMap.get k (headPeers s)) as [e |]; cbn [option_map].
  - now rewrite set_asLoaded.
  - now rewrite !set_asLoaded.
Qed.

Lemma ingestChangeLoaded_asLoaded (peer : string) (s : HeadSyncer) (c : PartialChange) :
  ingestChangeLoaded peer (asLoaded s) c = Completes (asLoaded (ingestChange peer s c)).
Proof.
  unfold ingestChangeLoaded, ingestChange.
  change (ld_changes (asLoaded s)) with (changes s).
  destruct (addChange c (changes s)) as [[rh md | |] g].
  - rewrite addPeerLoaded_asLoaded, delete_asLoaded. reflexivity.
  - destruct (JsSet.has (hash c) (heads g)); [| reflexivity].
    now rewrite addPeerLoaded_asLoaded.
  - reflexivity.
Qed.

(** X17.  As long as [headPeers] holds sets, as the class declares, the loop
    of [ingestChanges] never throws and does what [ingestChange] says; and
    that is so for the coordinator that [init] builds when nothing is
    stored. *)
Theorem ingest_on_sets_completes (s : HeadSyncer) (peer : string)
  (batch : list PartialChange) :
  applyBatchLoaded peer batch (asLoaded s) = Completes (asLoaded (applyBatch peer batch s))
  /\ applyBatchLoaded peer batch (initFrom None)
     = Completes (asLoaded (applyBatch peer batch emptySyncer)).
Proof.
  assert (H : forall s, applyBatchLoaded peer batch (asLoaded s)
                        = Completes (asLoaded (applyBatch peer batch s))).
  { unfold applyBatch. induction batch as [| c batch IH]; intros s0; simpl.
    - reflexivity.
    - now rewrite ingestChangeLoaded_asLoaded, IH. }
  split; [apply H |]. apply (H emptySyncer).
Qed.

(** On the coordinator that [init] builds from a saved snapshot, the loop
    body throws for a change that is a head, and leaves the coordinator as
    it found it. *)
Lemma ingestChangeLoaded_after_reload (s : HeadSyncer) (peer : string)
  (c : PartialChange) :
  reachable s ->
  In (hash c) (heads (changes s)) ->
  ingestChangeLoaded peer (initFrom (Some (JSON_stringify (pojo s)))) c
  = Throws addIsNotAFunction.
Proof.
  intros Hs Hhead.
  destruct (reachable_invariant s Hs) as [Hknown Hkeys].
  set (loaded := initFrom (Some (JSON_stringify (pojo s)))).
  pose proof (reload_restores_graph s Hs) as Hgraph. fold loaded in Hgraph.
  assert (Hfound : exists sets,
            JsMap.get (hash c) (ld_headPeers loaded) = Some (ArrayOfSets sets)).
  { assert (Hhas : JsMap.has (hash c) (ld_headPeers loaded) = true)
      by (apply reload_headPeers_has; now rewrite Hkeys).
    apply JsMap_has_get in Hhas. destruct Hhas as (x & Hx).
    destruct (reload_headPeers_arrays s _ _ Hx) as (sets & ->). now exists sets. }
  destruct Hfound as (sets & Hfound).
  unfold ingestChangeLoaded. rewrite Hgraph.
  rewrite addChange_known
    by (cbn [nodes]; rewrite objectOrder_has; now apply Hknown).
  cbn [heads]. apply JsSet_has_true in Hhead. rewrite Hhead.
  unfold addPeerLoaded, getOrDefault. now rewrite Hfound.
Qed.

(** X18.  Once a snapshot has been saved and loaded again, reporting a change
    that is a head throws: [init] has put an array under that head, and
    [ingestChanges] calls [add] on it.  The loop stops there, before the
    rest of the batch and before the save. *)
Theorem report_of_head_after_reload_throws (s : HeadSyncer) (peer : string)
  (c : PartialChange) (rest : list PartialChange) :
  reachable s ->
  In (hash c) (getLatestHeads s) ->
  applyBatchLoaded peer (c :: rest) (initFrom (Some (JSON_stringify (pojo s))))
  = Throws addIsNotAFunction.
Proof.
  unfold getLatestHeads. intros Hs Hhead.
  apply (ingestChangeLoaded_after_reload s peer c Hs) in Hhead.
  cbn [applyBatchLoaded]. now rewrite Hhead.
Qed.

Lemma report_of_head_after_reload_throws_witness :
  let s := applyBatch "p1" [mkChange "r" []; mkChange "a" ["r"]] emptySyncer in
  applyBatchLoaded "p2" [mkChange "a" ["r"]; mkChange "b" ["a"]]
    (initFrom (Some (JSON_stringify (pojo s))))
  = Throws addIsNotAFunction.
Proof.
  intros s. apply report_of_head_after_reload_throws.
  - apply reach_ingest, reach_empty.
  - simpl. now left.
Defined.

(** ** [ingestChanges] after a reload *)

Lemma memoryAtThrow_known (s : LoadedSyncer) (c : PartialChange) :
  JsMap.has (hash c) (nodes (ld_changes s)) = true -> memoryAtThrow s c = s.
Proof.
  intros H. unfold memoryAtThrow. rewrite (addChange_known c _ H). now destruct s.
Qed.

(** On the coordinator that [init] builds from a saved snapshot, a call
    whose batch starts with a head rejects with the exception of the loop,
    saves nothing and leaves the coordinator as [init] built it. *)
Lemma ingestChangesLoaded_after_reload {S E : Type}
  (storageSave : LoadedBlob -> S -> option E * S) (s : HeadSyncer) (peer : string)
  (c : PartialChange) (rest : list PartialChange) (st : S) (log : list LoadedCall) :
  reachable s ->
  In (hash c) (heads (changes s)) ->
  let loaded := initFrom (Some (JSON_stringify (pojo s))) in
  ingestChangesLoaded storageSave peer (c :: rest)
    {| lw_syncer := loaded; lw_store := st; lw_calls := log |} =
  (inr (ExceptionThrown addIsNotAFunction),
   {| lw_syncer := loaded; lw_store := st; lw_calls := log |}).
Proof.
  intros Hs Hhead loaded. subst loaded. unfold ingestChangesLoaded.
  cbn [lw_syncer lw_store lw_calls runBatchLoaded].
  rewrite (ingestChangeLoaded_after_reload s peer c Hs Hhead).
  rewrite memoryAtThrow_known; [reflexivity |].
  rewrite (reload_restores_graph s Hs). cbn [nodes].
  rewrite objectOrder_has. now apply (reachable_invariant s Hs).
Qed.

(** C9 fails on the code.  One peer reports r and then a; the snapshot is
    saved and, as the update route does for every request, loaded again by
    [init].  A second peer then reports a and a new change b: a is a head,
    [init] has stored an array under it, and [peers.add] throws.  The call
    rejects with that exception, whatever the storage: nothing is saved,
    and b never reaches the coordinator. *)
Theorem second_report_is_never_saved {S E : Type}
  (storageSave : LoadedBlob -> S -> option E * S) (st : S) :
  let s := applyBatch "p1" [mkChange "r" []; mkChange "a" ["r"]] emptySyncer in
  let loaded := initFrom (Some (JSON_stringify (pojo s))) in
  let call :=
    ingestChangesLoaded storageSave "p2" [mkChange "a" ["r"]; mkChange "b" ["a"]]
      {| lw_syncer := loaded; lw_store := st; lw_calls := [] |} in
  reachable s
  /\ fst call = inr (ExceptionThrown addIsNotAFunction)
  /\ lw_calls (snd call) = []
  /\ lw_store (snd call) = st
  /\ JsMap.has "b" (nodes (ld_changes (lw_syncer (snd call)))) = false.
Proof.
  intros s loaded call.
  assert (Hs : reachable s) by apply reach_ingest, reach_empty.
  split; [exact Hs |]. unfold call, loaded.
  rewrite (ingestChangesLoaded_after_reload storageSave s "p2" (mkChange "a" ["r"])
             [mkChange "b" ["a"]] st [] Hs) by (simpl; now left).
  repeat split.
Qed.

(** * Further properties of [ingestChanges] and the storage *)

Lemma ingestChanges_world {S E : Type} (storageSave : Blob -> S -> option E * S)
  (peer : string) (batch : list PartialChange) (w : World S) :
  snd (ingestChanges storageSave peer batch w) =
  {| syncer := applyBatch peer batch (syncer w);
     store := snd (storageSave (JSON_stringify (pojo (applyBatch peer batch (syncer w))))
                     (store w));
     calls := calls w
              ++ [SaveCall (JSON_stringify (pojo (applyBatch peer batch (syncer w))))] |}.
Proof.
  unfold ingestChanges. unfold andThen at 1. rewrite forEach_ingestChange.
  unfold andThen, thisSyncer, awaitSave. cbn [syncer store calls].
  now destruct (storageSave _ (store w)) as [[e |] st].
Qed.

(** X20.  Calling [ingestChanges] again with the same peer and batch, as a
    caller would after a failed save, leaves the coordinator in memory as
    the first call left it and saves the same snapshot a second time,
    whatever the storage answered the first time. *)
Theorem retry_saves_same_snapshot {S E : Type}
  (storageSave : Blob -> S -> option E * S)
  (peer : string) (batch : list PartialChange) (w : World S) :
  reachable (syncer w) ->
  let first := snd (ingestChanges storageSave peer batch w) in
  let second := snd (ingestChanges storageSave peer batch first) in
  let data := JSON_stringify (pojo (applyBatch peer batch (syncer w))) in
  syncer second = syncer first
  /\ calls second = calls w ++ [SaveCall data; SaveCall data].
Proof.
  intros Hw first second data. unfold second, first.
  rewrite !ingestChanges_world. cbn [syncer store calls].
  assert (Hsame : applyBatch peer batch (applyBatch peer batch (syncer w))
                  = applyBatch peer batch (syncer w)).
  { apply applyBatch_settled_fixed, applyBatch_settles.
    now apply reachable_invariant. }
  rewrite Hsame. split; [reflexivity |]. now rewrite <- app_assoc.
Qed.

Lemma retry_saves_same_snapshot_witness :
  let save := fun (_ : Blob) (attempts : nat) =>
                (if attempts =? 0 then Some "unavailable" else None, S attempts) in
  let w := {| syncer := emptySyncer; store := 0; calls := [] |} in
  let batch := [mkChange "r" []; mkChange "a" ["r"]] in
  let first := snd (ingestChanges save "p1" batch w) in
  let second := snd (ingestChanges save "p1" batch first) in
  let data := JSON_stringify (pojo (applyBatch "p1" batch emptySyncer)) in
  syncer second = syncer first
  /\ calls second = [SaveCall data; SaveCall data].
Proof.
  intros save w batch.
  apply (retry_saves_same_snapshot save "p1" batch w). apply reach_empty.
Defined.
